(** * Polysat univariate solver (bit-blasting back end)

    A shallow embedding of
    [src/math/polysat/univariate/univariate_solver.cpp].

    The class [univariate_bitblast_solver] builds bit-vector terms over one
    unknown [x] of a fixed width, asserts them, each under a label named after
    the caller's dependency, into an incremental decision procedure, keeps a
    per-scope cache of the last model and searches the least and the greatest
    value of [x] bit by bit.

    Layout of this file: terms and their meaning, the polynomial encoder, the
    decision procedure seen through its interface, the solver class itself,
    two concrete decision procedures to run it on, and then the theorems. *)

From Stdlib Require Import ZArith List Bool Lia.
Import ListNotations.
Local Open Scope Z_scope.

(* ================================================================== *)
(** * Terms *)

(** [symbol(dep)]: a numerical symbol; [get_num] reads the number back. *)
Inductive symbol : Type :=
| symbol_num (idx : N).

Definition get_num (a : symbol) : N :=
  match a with symbol_num idx => idx end.

Definition symbol_eqb (a b : symbol) : bool := N.eqb (get_num a) (get_num b).

(** Bit-vector terms of the one sort [bv->mk_sort(bit_width)].  Each
    constructor stands for the [bv_util] call of the same name; [bv_x] is the
    constant [x] made by the constructor of the class. *)
Inductive bv_expr : Type :=
| bv_x
| mk_bv_numeral (r : Z)
| mk_bv_add (a b : bv_expr)
| mk_bv_mul (a b : bv_expr)
| mk_bv_shl (a b : bv_expr)
| mk_bv_lshr (a b : bv_expr)
| mk_bv_ashr (a b : bv_expr)
| mk_bv_and (a b : bv_expr)
| mk_bv_or (a b : bv_expr)
| mk_bv_xor (a b : bv_expr)
| mk_bv_not (a : bv_expr).

(** Boolean terms: what [add] hands to [assert_expr]. *)
Inductive bool_expr : Type :=
| mk_ule (a b : bv_expr)
| mk_bvumul_no_ovfl (a b : bv_expr)
| mk_bvsmul_no_ovfl (a b : bv_expr)
| mk_bvsmul_no_udfl (a b : bv_expr)
| mk_eq (a b : bv_expr)
| mk_bit2bool (a : bv_expr) (idx : nat)
| mk_not (e : bool_expr).

(** Modelled from the spec: the meaning of the terms.  [bv_util] and the
    decision procedure are not in this file; the spec fixes that "all
    arithmetic/comparison semantics are exactly W-bit modular", and the
    operators are the fixed-width bit-vector ones.  A numeral of width [W]
    holds its value modulo [2^W]. *)
Definition modulus (W : nat) : Z := 2 ^ Z.of_nat W.

Definition wrap (W : nat) (z : Z) : Z := z mod modulus W.

(** Two's complement reading of a value in [0, 2^W). *)
Definition signed (W : nat) (z : Z) : Z :=
  if 2 * z <? modulus W then z else z - modulus W.

Fixpoint eval (W : nat) (v : Z) (e : bv_expr) : Z :=
  match e with
  | bv_x => v
  | mk_bv_numeral r => wrap W r
  | mk_bv_add a b => wrap W (eval W v a + eval W v b)
  | mk_bv_mul a b => wrap W (eval W v a * eval W v b)
  | mk_bv_shl a b => wrap W (Z.shiftl (eval W v a) (eval W v b))
  | mk_bv_lshr a b => Z.shiftr (eval W v a) (eval W v b)
  | mk_bv_ashr a b => wrap W (Z.shiftr (signed W (eval W v a)) (eval W v b))
  | mk_bv_and a b => Z.land (eval W v a) (eval W v b)
  | mk_bv_or a b => Z.lor (eval W v a) (eval W v b)
  | mk_bv_xor a b => Z.lxor (eval W v a) (eval W v b)
  | mk_bv_not a => modulus W - 1 - eval W v a
  end.

Fixpoint holds (W : nat) (v : Z) (e : bool_expr) : bool :=
  match e with
  | mk_ule a b => eval W v a <=? eval W v b
  | mk_bvumul_no_ovfl a b => eval W v a * eval W v b <? modulus W
  | mk_bvsmul_no_ovfl a b =>
      2 * (signed W (eval W v a) * signed W (eval W v b)) <? modulus W
  | mk_bvsmul_no_udfl a b =>
      - modulus W <=? 2 * (signed W (eval W v a) * signed W (eval W v b))
  | mk_eq a b => eval W v a =? eval W v b
  | mk_bit2bool a idx => Z.testbit (eval W v a) (Z.of_nat idx)
  | mk_not e => negb (holds W v e)
  end.

(** A labelled assertion [(assert (! e :named a))]. *)
Definition assertion : Type := (bool_expr * symbol)%type.

Definition holds_all (W : nat) (v : Z) (A : list assertion) : bool :=
  forallb (fun a => holds W v (fst a)) A.

(** [v] is a value of the unknown that satisfies every assertion of [A]. *)
Definition models (W : nat) (A : list assertion) (v : Z) : Prop :=
  0 <= v < modulus W /\ holds_all W v A = true.

(* ================================================================== *)
(** * The polynomial encoder *)

(** [univariate]: the coefficients, index = degree.  The coefficients are
    [rational]s that hold integers. *)
Definition univariate : Type := list Z.

(** Modelled from the spec: [rational::is_power_of_two(pow)], of
    [util/rational.h]: "the coefficient is an exact power of two (shift
    amount = log2 of the coefficient)". *)
Definition is_power_of_two (coeff : Z) : option Z :=
  if (0 <? coeff) && (coeff =? 2 ^ Z.log2 coeff)
  then Some (Z.log2 coeff) else None.

Definition mk_numeral (r : Z) : bv_expr := mk_bv_numeral r.

(** [2^k*x --> x << k],  [n*x --> n * x]. *)
Definition mk_poly_term (coeff : Z) (xpow : bv_expr) : bv_expr :=
  match is_power_of_two coeff with
  | Some pow => mk_bv_shl xpow (mk_numeral pow)
  | None => mk_bv_mul (mk_numeral coeff) xpow
  end.

(** The multiply-based encoding of a term, whatever the coefficient: the
    [else] branch of [mk_poly_term] taken alone. *)
Definition mk_poly_term_mul (coeff : Z) (xpow : bv_expr) : bv_expr :=
  mk_bv_mul (mk_numeral coeff) xpow.

(** The body of the [for] loop of [mk_poly], from index [i] on: [p] holds
    the coefficients [p[i], p[i+1], ...]. *)
Fixpoint mk_poly_loop (p : list Z) (e xpow : bv_expr) : bv_expr :=
  match p with
  | [] => e
  | c :: rest =>
      let e' := if c =? 0 then e else mk_bv_add e (mk_poly_term c xpow) in
      match rest with
      | [] => e'
      | _ :: _ => mk_poly_loop rest e' (mk_bv_mul xpow bv_x)
      end
  end.

(** [[d,c,b,a]  -->  d + c*x + b*(x*x) + a*(x*x*x)]. *)
Definition mk_poly (p : univariate) : bv_expr :=
  match p with
  | [] => mk_numeral 0
  | c0 :: rest => mk_poly_loop rest (mk_numeral c0) bv_x
  end.

(** The polynomial itself: [c0 + c1*v + c2*v^2 + ...]. *)
Fixpoint poly_value (p : list Z) (v : Z) : Z :=
  match p with
  | [] => 0
  | c :: rest => c + v * poly_value rest v
  end.

(* ================================================================== *)
(** * The decision procedure, seen through its interface *)

Inductive lbool : Type := l_false | l_undef | l_true.

(** What one satisfiability check finds: a value of the unknown, a core of
    labels, or nothing. *)
Inductive check_sat_result : Type :=
| r_sat (v : Z)
| r_unsat (core : list symbol)
| r_unknown.

Definition lbool_of (r : check_sat_result) : lbool :=
  match r with
  | r_sat _ => l_true
  | r_unsat _ => l_false
  | r_unknown => l_undef
  end.

(** The algorithm behind [check_sat] is an injected capability: given the
    width and the labelled assertions in force it answers.  The class below
    is the abstract [solver] that [mk_solver] instantiates. *)
Class decision_procedure : Type :=
  check_sat_core : nat -> list assertion -> check_sat_result.

(** The requests the solver class sends, kept as a log (latest first). *)
Inductive request : Type :=
| req_assert_expr (e : bool_expr) (a : symbol)
| req_push
| req_pop (n : Z)
| req_check_sat
| req_get_model
| req_get_unsat_core.

(** Modelled from the spec: the state of the incremental decision procedure
    ([solver/solver.h] is not in this file), after its interface
    "assert-with-label(formula, label), push(), pop(n), check-sat(),
    get-model(), get-unsat-core()".  [scopes] is the assertion stack, the
    current scope first; [last_result] is the outcome of the most recent
    check, available as long as the assertion stack is the checked one: an
    assertion, a push or a pop discards it. *)
Record solver : Type := mk_solver_state {
  scopes : list (list assertion);
  last_result : option check_sat_result;
  requests : list request
}.

Definition solver_init : solver :=
  {| scopes := [[]]; last_result := None; requests := [] |}.

(** The assertions in force. *)
Definition assertions (sv : solver) : list assertion := concat (scopes sv).

Definition solver_assert_expr (e : bool_expr) (a : symbol) (sv : solver) : solver :=
  {| scopes := match scopes sv with
               | [] => [[(e, a)]]
               | f :: below => ((e, a) :: f) :: below
               end;
     last_result := None;
     requests := req_assert_expr e a :: requests sv |}.

Definition solver_push (sv : solver) : solver :=
  {| scopes := [] :: scopes sv;
     last_result := None;
     requests := req_push :: requests sv |}.

Definition solver_pop (n : Z) (sv : solver) : solver :=
  {| scopes := skipn (Z.to_nat n) (scopes sv);
     last_result := None;
     requests := req_pop n :: requests sv |}.

Definition solver_check_sat {dp : decision_procedure} (W : nat) (sv : solver)
  : lbool * solver :=
  let r := check_sat_core W (assertions sv) in
  (lbool_of r,
   {| scopes := scopes sv;
      last_result := Some r;
      requests := req_check_sat :: requests sv |}).

(** [get_model]: the model of the last check, null when there is none. *)
Definition solver_get_model (sv : solver) : option Z * solver :=
  (match last_result sv with
   | Some (r_sat v) => Some v
   | _ => None
   end,
   {| scopes := scopes sv;
      last_result := last_result sv;
      requests := req_get_model :: requests sv |}).

(** [get_unsat_core]: the core of the last check, empty when there is none. *)
Definition solver_get_unsat_core (sv : solver) : list symbol * solver :=
  (match last_result sv with
   | Some (r_unsat core) => core
   | _ => []
   end,
   {| scopes := scopes sv;
      last_result := last_result sv;
      requests := req_get_unsat_core :: requests sv |}).

(* ================================================================== *)
(** * The class [univariate_bitblast_solver] *)

(** Assertions are taken as compiled in: a failed [SASSERT], or [back()] /
    [pop_back()] on an empty vector, ends the run, and every member function
    that can meet one returns [None] there. *)
Notation "x <- e ;; k" :=
  (match e with Some x => k | None => None end)
  (at level 61, e at next level, right associativity).
Notation "' pat <- e ;; k" :=
  (match e with Some pat => k | None => None end)
  (at level 61, pat pattern, e at next level, right associativity).

(** [m_scope_level] is an [unsigned]: 32 bits, wrapping. *)
Definition unsigned_wrap (z : Z) : Z := z mod 2 ^ 32.

(** [model_cache] is a stack whose [back()] is the head of the list; a
    negative entry means "no model cached". *)
Record univariate_bitblast_solver : Type := mk_univariate_bitblast_solver {
  bit_width : nat;
  m_scope_level : Z;
  model_cache : list Z;
  s : solver
}.

Definition set_scope_level (l : Z) (u : univariate_bitblast_solver) :=
  {| bit_width := bit_width u; m_scope_level := l;
     model_cache := model_cache u; s := s u |}.

Definition set_model_cache (c : list Z) (u : univariate_bitblast_solver) :=
  {| bit_width := bit_width u; m_scope_level := m_scope_level u;
     model_cache := c; s := s u |}.

Definition set_solver (sv : solver) (u : univariate_bitblast_solver) :=
  {| bit_width := bit_width u; m_scope_level := m_scope_level u;
     model_cache := model_cache u; s := sv |}.

(** The constructor. *)
Definition construct (W : nat) : univariate_bitblast_solver :=
  {| bit_width := W; m_scope_level := 0; model_cache := [-1];
     s := solver_init |}.

Definition reset_cache (u : univariate_bitblast_solver) :=
  match model_cache u with
  | [] => None
  | _ :: below => Some (set_model_cache (-1 :: below) u)
  end.

Definition push_cache (u : univariate_bitblast_solver) :=
  match model_cache u with
  | [] => None
  | top :: below => Some (set_model_cache (top :: top :: below) u)
  end.

Definition pop_cache (u : univariate_bitblast_solver) :=
  match model_cache u with
  | [] => None
  | _ :: below => Some (set_model_cache below u)
  end.

Definition push (u : univariate_bitblast_solver) :=
  let u1 := set_scope_level (unsigned_wrap (m_scope_level u + 1)) u in
  u2 <- push_cache u1 ;;
  Some (set_solver (solver_push (s u2)) u2).

Definition scope_level (u : univariate_bitblast_solver) : Z := m_scope_level u.

Definition pop (n : Z) (u : univariate_bitblast_solver) :=
  if scope_level u <? n then None
  else
    let u1 := set_scope_level (unsigned_wrap (m_scope_level u - n)) u in
    u2 <- pop_cache u1 ;;
    Some (set_solver (solver_pop n (s u2)) u2).

Definition add (e : bool_expr) (sign : bool) (dep : N)
  (u : univariate_bitblast_solver) :=
  u1 <- reset_cache u ;;
  let e := if sign then mk_not e else e in
  let a := symbol_num dep in
  Some (set_solver (solver_assert_expr e a (s u1)) u1).

Definition add_ule (lhs rhs : univariate) (sign : bool) (dep : N) :=
  add (mk_ule (mk_poly lhs) (mk_poly rhs)) sign dep.

Definition add_umul_ovfl (lhs rhs : univariate) (sign : bool) (dep : N) :=
  add (mk_bvumul_no_ovfl (mk_poly lhs) (mk_poly rhs)) (negb sign) dep.

Definition add_smul_ovfl (lhs rhs : univariate) (sign : bool) (dep : N) :=
  add (mk_bvsmul_no_ovfl (mk_poly lhs) (mk_poly rhs)) (negb sign) dep.

Definition add_smul_udfl (lhs rhs : univariate) (sign : bool) (dep : N) :=
  add (mk_bvsmul_no_udfl (mk_poly lhs) (mk_poly rhs)) (negb sign) dep.

Definition add_lshr (in1 in2 out : univariate) (sign : bool) (dep : N) :=
  add (mk_eq (mk_bv_lshr (mk_poly in1) (mk_poly in2)) (mk_poly out)) sign dep.

Definition add_ashr (in1 in2 out : univariate) (sign : bool) (dep : N) :=
  add (mk_eq (mk_bv_ashr (mk_poly in1) (mk_poly in2)) (mk_poly out)) sign dep.

Definition add_shl (in1 in2 out : univariate) (sign : bool) (dep : N) :=
  add (mk_eq (mk_bv_shl (mk_poly in1) (mk_poly in2)) (mk_poly out)) sign dep.

Definition add_and (in1 in2 out : univariate) (sign : bool) (dep : N) :=
  add (mk_eq (mk_bv_and (mk_poly in1) (mk_poly in2)) (mk_poly out)) sign dep.

Definition add_or (in1 in2 out : univariate) (sign : bool) (dep : N) :=
  add (mk_eq (mk_bv_or (mk_poly in1) (mk_poly in2)) (mk_poly out)) sign dep.

Definition add_xor (in1 in2 out : univariate) (sign : bool) (dep : N) :=
  add (mk_eq (mk_bv_xor (mk_poly in1) (mk_poly in2)) (mk_poly out)) sign dep.

Definition add_not (in1 out : univariate) (sign : bool) (dep : N) :=
  add (mk_eq (mk_bv_not (mk_poly in1)) (mk_poly out)) sign dep.

Definition add_ule_const (val : Z) (sign : bool) (dep : N) :=
  add (mk_ule bv_x (mk_numeral val)) sign dep.

Definition add_uge_const (val : Z) (sign : bool) (dep : N) :=
  add (mk_ule (mk_numeral val) bv_x) sign dep.

Definition add_bit (idx : nat) (sign : bool) (dep : N) :=
  add (mk_bit2bool bv_x idx) sign dep.

(** Modelled from the spec: [add_bit0] and [add_bit1] are declared in
    [univariate_solver.h], not in this file; they "force" one bit of the
    unknown to 0, resp. to 1, with a single-bit constraint. *)
Definition add_bit0 (idx : nat) (dep : N) := add_bit idx true dep.
Definition add_bit1 (idx : nat) (dep : N) := add_bit idx false dep.

Section Queries.
Context {dp : decision_procedure}.

Definition check (u : univariate_bitblast_solver)
  : lbool * univariate_bitblast_solver :=
  let (r, sv) := solver_check_sat (bit_width u) (s u) in
  (r, set_solver sv u).

(** [unsat_core(deps)]: the numbers of the labels of the core;
    [SASSERT(deps.size() > 0)]. *)
Definition unsat_core (u : univariate_bitblast_solver)
  : option (list N * univariate_bitblast_solver) :=
  let (core, sv) := solver_get_unsat_core (s u) in
  let deps := map get_num core in
  match deps with
  | [] => None
  | _ :: _ => Some (deps, set_solver sv u)
  end.

(** [model()]: the cached value, or the binding of [x] in the model of the
    decision procedure, cached on the way; [SASSERT(model)]. *)
Definition model (u : univariate_bitblast_solver)
  : option (Z * univariate_bitblast_solver) :=
  match model_cache u with
  | [] => None
  | cached_model :: below =>
      if cached_model <? 0 then
        let (m, sv) := solver_get_model (s u) in
        match m with
        | None => None
        | Some val =>
            Some (val, set_model_cache (val :: below) (set_solver sv u))
        end
      else Some (cached_model, u)
  end.

(** The [for] loop of [find_min]: [k] iterations are left, the next one
    handles bit [k - 1].  The result is the flag returned, the value of
    [val] and the state; the flag is [false] where the loop leaves the
    function by [return false]. *)
Fixpoint find_min_loop (k : nat) (val : Z) (u : univariate_bitblast_solver)
  : option (bool * Z * univariate_bitblast_solver) :=
  match k with
  | O => Some (true, val, u)
  | S k =>
      if negb (Z.testbit val (Z.of_nat k)) then
        u <- add_bit0 k 0 u ;;
        find_min_loop k val u
      else
        u <- push u ;;
        u <- add_bit0 k 0 u ;;
        let (result, u) := check u in
        match result with
        | l_true =>
            '(m, u) <- model u ;;
            if m <? val then
              '(val, u) <- model u ;;
              u <- pop 1 u ;;
              u <- add_bit0 k 0 u ;;
              find_min_loop k val u
            else None
        | l_false =>
            u <- pop 1 u ;;
            u <- add_bit1 k 0 u ;;
            find_min_loop k val u
        | l_undef =>
            u <- pop 1 u ;;
            Some (false, val, u)
        end
  end.

Definition find_min (u : univariate_bitblast_solver)
  : option (bool * Z * univariate_bitblast_solver) :=
  '(val, u) <- model u ;;
  u <- push u ;;
  '(ok, val, u) <- find_min_loop (bit_width u) val u ;;
  if ok then
    u <- pop 1 u ;;
    Some (true, val, u)
  else Some (false, val, u).

(** The [for] loop of [find_max], as [find_min_loop]. *)
Fixpoint find_max_loop (k : nat) (val : Z) (u : univariate_bitblast_solver)
  : option (bool * Z * univariate_bitblast_solver) :=
  match k with
  | O => Some (true, val, u)
  | S k =>
      if Z.testbit val (Z.of_nat k) then
        u <- add_bit1 k 0 u ;;
        find_max_loop k val u
      else
        u <- push u ;;
        u <- add_bit1 k 0 u ;;
        let (result, u) := check u in
        match result with
        | l_true =>
            '(m, u) <- model u ;;
            if val <? m then
              '(val, u) <- model u ;;
              u <- pop 1 u ;;
              u <- add_bit1 k 0 u ;;
              find_max_loop k val u
            else None
        | l_false =>
            u <- pop 1 u ;;
            u <- add_bit0 k 0 u ;;
            find_max_loop k val u
        | l_undef =>
            u <- pop 1 u ;;
            Some (false, val, u)
        end
  end.

Definition find_max (u : univariate_bitblast_solver)
  : option (bool * Z * univariate_bitblast_solver) :=
  '(val, u) <- model u ;;
  u <- push u ;;
  '(ok, val, u) <- find_max_loop (bit_width u) val u ;;
  if ok then
    u <- pop 1 u ;;
    Some (true, val, u)
  else Some (false, val, u).

(** A caller's request, and a run of requests on one instance. *)
Inductive operation : Type :=
| op_push
| op_pop (n : Z)
| op_add_ule (lhs rhs : univariate) (sign : bool) (dep : N)
| op_add_umul_ovfl (lhs rhs : univariate) (sign : bool) (dep : N)
| op_add_smul_ovfl (lhs rhs : univariate) (sign : bool) (dep : N)
| op_add_smul_udfl (lhs rhs : univariate) (sign : bool) (dep : N)
| op_add_lshr (in1 in2 out : univariate) (sign : bool) (dep : N)
| op_add_ashr (in1 in2 out : univariate) (sign : bool) (dep : N)
| op_add_shl (in1 in2 out : univariate) (sign : bool) (dep : N)
| op_add_and (in1 in2 out : univariate) (sign : bool) (dep : N)
| op_add_or (in1 in2 out : univariate) (sign : bool) (dep : N)
| op_add_xor (in1 in2 out : univariate) (sign : bool) (dep : N)
| op_add_not (in1 out : univariate) (sign : bool) (dep : N)
| op_add_ule_const (val : Z) (sign : bool) (dep : N)
| op_add_uge_const (val : Z) (sign : bool) (dep : N)
| op_add_bit (idx : nat) (sign : bool) (dep : N)
| op_check
| op_model
| op_find_min
| op_find_max.

Definition step (o : operation) (u : univariate_bitblast_solver)
  : option univariate_bitblast_solver :=
  match o with
  | op_push => push u
  | op_pop n => pop n u
  | op_add_ule lhs rhs sign dep => add_ule lhs rhs sign dep u
  | op_add_umul_ovfl lhs rhs sign dep => add_umul_ovfl lhs rhs sign dep u
  | op_add_smul_ovfl lhs rhs sign dep => add_smul_ovfl lhs rhs sign dep u
  | op_add_smul_udfl lhs rhs sign dep => add_smul_udfl lhs rhs sign dep u
  | op_add_lshr in1 in2 out sign dep => add_lshr in1 in2 out sign dep u
  | op_add_ashr in1 in2 out sign dep => add_ashr in1 in2 out sign dep u
  | op_add_shl in1 in2 out sign dep => add_shl in1 in2 out sign dep u
  | op_add_and in1 in2 out sign dep => add_and in1 in2 out sign dep u
  | op_add_or in1 in2 out sign dep => add_or in1 in2 out sign dep u
  | op_add_xor in1 in2 out sign dep => add_xor in1 in2 out sign dep u
  | op_add_not in1 out sign dep => add_not in1 out sign dep u
  | op_add_ule_const val sign dep => add_ule_const val sign dep u
  | op_add_uge_const val sign dep => add_uge_const val sign dep u
  | op_add_bit idx sign dep => add_bit idx sign dep u
  | op_check => Some (snd (check u))
  | op_model => '(_, u) <- model u ;; Some u
  | op_find_min => '(_, _, u) <- find_min u ;; Some u
  | op_find_max => '(_, _, u) <- find_max u ;; Some u
  end.

Fixpoint run (ops : list operation) (u : univariate_bitblast_solver)
  : option univariate_bitblast_solver :=
  match ops with
  | [] => Some u
  | o :: ops => u <- step o u ;; run ops u
  end.

End Queries.

(** The assertions in force in an instance, and the cached value of the
    current scope. *)
Definition in_force (u : univariate_bitblast_solver) : list assertion :=
  assertions (s u).

(** The dependencies named by a core, as a filter on labelled assertions. *)
Definition labelled_by (deps : list N) (a : assertion) : bool :=
  existsb (N.eqb (get_num (snd a))) deps.

(* ================================================================== *)
(** * What a decision procedure owes its caller *)

(** A sat answer carries a value of the unknown that satisfies the
    assertions; an unsat answer names labels of assertions in force whose
    assertions have no common value.  An unknown answer owes nothing. *)
Record sound (dp : decision_procedure) : Prop := {
  sat_sound : forall W A v,
    check_sat_core W A = r_sat v -> models W A v;
  unsat_sound : forall W A core,
    check_sat_core W A = r_unsat core ->
    incl core (map snd A) /\
    forall v, 0 <= v < modulus W ->
      holds_all W v (filter (labelled_by (map get_num core)) A) = false
}.

(* ================================================================== *)
(** * Two decision procedures to run the class on *)

(** Tries [v], [v + 1], ... for [n] values. *)
Fixpoint search (W : nat) (A : list assertion) (n : nat) (v : Z) : option Z :=
  match n with
  | O => None
  | S n => if holds_all W v A then Some v else search W A n (v + 1)
  end.

(** Exhaustive search over [0, 2^W); the core is every label. *)
Definition exhaustive : decision_procedure :=
  fun W A =>
    match search W A (2 ^ W)%nat 0 with
    | Some v => r_sat v
    | None => r_unsat (map snd A)
    end.

(** The same with a resource bound: gives up on more than [4] assertions. *)
Definition bounded : decision_procedure :=
  fun W A =>
    if (length A <=? 4)%nat then exhaustive W A else r_unknown.

(* ================================================================== *)
(** * Properties of states *)

(** The part of [x] above bit [k]: [x >> k]. *)
Definition high (k : nat) (x : Z) : Z := x / 2 ^ Z.of_nat k.

(** The result that the decision procedure keeps, when it keeps one, is its
    answer to the assertions now in force. *)
Definition result_current {dp : decision_procedure}
  (u : univariate_bitblast_solver) : Prop :=
  forall r, last_result (s u) = Some r ->
            r = check_sat_core (bit_width u) (in_force u).

(** The cached value of the current scope, when valid, satisfies the
    assertions in force. *)
Definition cache_consistent (u : univariate_bitblast_solver) : Prop :=
  forall top below, model_cache u = top :: below -> 0 <= top ->
                    models (bit_width u) (in_force u) top.

(** The same for every frame of the cache, each against the assertions of
    its own scope and of the scopes below; one frame per scope. *)
Fixpoint frames_consistent (W : nat) (cache : list Z)
  (sc : list (list assertion)) : Prop :=
  match cache, sc with
  | [], [] => True
  | top :: below, f :: fs =>
      (0 <= top -> models W (concat (f :: fs)) top) /\
      frames_consistent W below fs
  | _, _ => False
  end.

(** The unknown can only take the value [v]. *)
Definition pinned (u : univariate_bitblast_solver) (v : Z) : Prop :=
  forall x, models (bit_width u) (in_force u) x -> x = v.

(** The loop invariant of [find_min]: [A] are the assertions at entry,
    bits [k] and above of [val] are forced, and no value that satisfies [A]
    is smaller there. *)
Record min_invariant (W : nat) (A : list assertion) (k : nat) (val : Z)
  (u : univariate_bitblast_solver) : Prop := {
  min_width : bit_width u = W;
  min_val : models W A val;
  min_forced : forall x,
    models W (in_force u) x <-> models W A x /\ high k x = high k val;
  min_least : forall x, models W A x -> high k val <= high k x
}.

(** The loop invariant of [find_max], mirrored. *)
Record max_invariant (W : nat) (A : list assertion) (k : nat) (val : Z)
  (u : univariate_bitblast_solver) : Prop := {
  max_width : bit_width u = W;
  max_val : models W A val;
  max_forced : forall x,
    models W (in_force u) x <-> models W A x /\ high k x = high k val;
  max_greatest : forall x, models W A x -> high k x <= high k val
}.

(** The single-bit assertion that the search forces: bit [k] of the
    unknown is [b]; its dependency is [0]. *)
Definition bit_assertion (k : nat) (b : bool) : assertion :=
  (if b then mk_bit2bool bv_x k else mk_not (mk_bit2bool bv_x k), symbol_num 0).

(** Every coefficient is below [2^(2^W)]: the exponent of a power-of-two
    coefficient fits a numeral of width [W]. *)
Definition coefficients_fit (W : nat) (p : univariate) : Prop :=
  Forall (fun c => c < 2 ^ modulus W) p.

(** A state is consistent when every cache frame is and the kept result is
    current. *)
Definition consistent {dp : decision_procedure}
  (u : univariate_bitblast_solver) : Prop :=
  frames_consistent (bit_width u) (model_cache u) (scopes (s u)) /\
  result_current u.

(** Runs whose [pop]s all close exactly one scope. *)
Definition pops_one_scope (ops : list operation) : Prop :=
  Forall (fun o => match o with op_pop n => n = 1 | _ => True end) ops.

(* ================================================================== *)
(** * Further definitions *)

(** The encoder kept under [#if 0]:
    [[d,c,b,a]  -->  ((a*x + b)*x + c)*x + d].  The loop runs from index
    [p.size() - 2] down to 0; [p] holds the coefficients still to come,
    highest index first. *)
Fixpoint mk_poly_horner_loop (p : list Z) (e : bv_expr) : bv_expr :=
  match p with
  | [] => e
  | c :: rest =>
      let e := mk_bv_mul e bv_x in
      let e := if c =? 0 then e else mk_bv_add e (mk_numeral c) in
      mk_poly_horner_loop rest e
  end.

Definition mk_poly_horner (p : univariate) : bv_expr :=
  match rev p with
  | [] => mk_numeral 0
  | back :: rest => mk_poly_horner_loop rest (mk_numeral back)
  end.

(** The value of a polynomial as a bit-vector of width [W]. *)
Definition poly_mod (W : nat) (p : univariate) (v : Z) : Z :=
  wrap W (poly_value p v).

(** Requests that stay within the current scope: the [add_*] family,
    [check] and [model]. *)
Definition scope_local (o : operation) : bool :=
  match o with
  | op_push | op_pop _ | op_find_min | op_find_max => false
  | _ => true
  end.

(** Requests other than the extremal searches, with well-formed (unsigned)
    arguments of [pop]. *)
Definition plain (o : operation) : Prop :=
  match o with
  | op_find_min | op_find_max => False
  | op_pop n => 0 <= n
  | _ => True
  end.

(** Scopes opened minus scopes closed. *)
Definition scope_delta (o : operation) : Z :=
  match o with
  | op_push => 1
  | op_pop n => - n
  | _ => 0
  end.

Definition net_scopes (ops : list operation) : Z :=
  fold_right (fun o z => scope_delta o + z) 0 ops.

(** The satisfiability checks among the requests sent. *)
Definition checks (rs : list request) : nat :=
  length (filter (fun r => match r with req_check_sat => true | _ => false end)
            rs).

(** A decision procedure that never gives up. *)
Definition decides (dp : decision_procedure) : Prop :=
  forall W A, check_sat_core W A <> r_unknown.

(** From [u] to [u'] the satisfying values are narrowed to those where the
    predicate [P] is the opposite of the sign flag; the width stays. *)
Definition narrows (u u' : univariate_bitblast_solver) (P : Z -> bool)
  (sign : bool) : Prop :=
  bit_width u' = bit_width u /\
  forall v, models (bit_width u) (in_force u') v <->
            models (bit_width u) (in_force u) v /\ P v = negb sign.

(** Cache frames pushed minus cache frames popped: a [pop(n)] pops one. *)
Definition cache_delta (o : operation) : Z :=
  match o with
  | op_push => 1
  | op_pop _ => -1
  | _ => 0
  end.

Definition net_cache_frames (ops : list operation) : Z :=
  fold_right (fun o z => cache_delta o + z) 0 ops.

(** The overflow predicates of the specification, on the values of the two
    factors as bit-vectors of width [W]: the unsigned product stays below
    [2^W]; the signed product stays below [2^(W-1)]; the signed product
    stays at or above [-2^(W-1)]. *)
Definition no_unsigned_overflow (W : nat) (a b : Z) : bool :=
  a * b <? modulus W.

Definition no_signed_overflow (W : nat) (a b : Z) : bool :=
  2 * (signed W a * signed W b) <? modulus W.

Definition no_signed_underflow (W : nat) (a b : Z) : bool :=
  - modulus W <=? 2 * (signed W a * signed W b).

(* ================================================================== *)
(** * Arithmetic modulo [2^W] *)

Lemma modulus_pos (W : nat) : 0 < modulus W.
Proof. unfold modulus. apply Z.pow_pos_nonneg; lia. Qed.

Lemma wrap_range (W : nat) (z : Z) : 0 <= wrap W z < modulus W.
Proof. unfold wrap. apply Z.mod_pos_bound, modulus_pos. Qed.

Lemma wrap_small (W : nat) (z : Z) : 0 <= z < modulus W -> wrap W z = z.
Proof. unfold wrap. apply Z.mod_small. Qed.

Lemma wrap_wrap (W : nat) (z : Z) : wrap W (wrap W z) = wrap W z.
Proof. apply wrap_small, wrap_range. Qed.

Lemma wrap_add_l (W : nat) (a b : Z) : wrap W (wrap W a + b) = wrap W (a + b).
Proof. unfold wrap. apply Z.add_mod_idemp_l. pose proof (modulus_pos W). lia. Qed.

Lemma wrap_add_r (W : nat) (a b : Z) : wrap W (a + wrap W b) = wrap W (a + b).
Proof. unfold wrap. apply Z.add_mod_idemp_r. pose proof (modulus_pos W). lia. Qed.

Lemma wrap_mul_l (W : nat) (a b : Z) : wrap W (wrap W a * b) = wrap W (a * b).
Proof. unfold wrap. apply Z.mul_mod_idemp_l. pose proof (modulus_pos W). lia. Qed.

(** Congruent summands give congruent sums. *)
Lemma wrap_add_congr (W : nat) (a a' b b' : Z) :
  wrap W a = wrap W a' -> wrap W b = wrap W b' ->
  wrap W (a + b) = wrap W (a' + b').
Proof.
  intros Ha Hb.
  rewrite <- (wrap_add_l W a b), <- (wrap_add_r W _ b), Ha, Hb.
  now rewrite wrap_add_l, wrap_add_r.
Qed.

(* ================================================================== *)
(** * The encoder *)

Lemma is_power_of_two_spec (coeff pow : Z) :
  is_power_of_two coeff = Some pow -> 0 <= pow /\ coeff = 2 ^ pow.
Proof.
  unfold is_power_of_two.
  destruct (0 <? coeff) eqn:Hpos; simpl; [|discriminate].
  destruct (coeff =? 2 ^ Z.log2 coeff) eqn:Heq; [|discriminate].
  intros [= <-]. split; [apply Z.log2_nonneg | now apply Z.eqb_eq].
Qed.

Lemma is_power_of_two_pow2 (k : Z) : 0 <= k -> is_power_of_two (2 ^ k) = Some k.
Proof.
  intros Hk. unfold is_power_of_two.
  rewrite Z.log2_pow2 by assumption.
  assert (0 < 2 ^ k) by (apply Z.pow_pos_nonneg; lia).
  replace (0 <? 2 ^ k) with true by (symmetry; now apply Z.ltb_lt).
  now rewrite Z.eqb_refl.
Qed.

(** As long as the shift amount fits the width of a numeral, the term that
    [mk_poly_term] builds is worth coefficient times power, modulo [2^W]. *)
Lemma mk_poly_term_value (W : nat) (coeff : Z) (xpow : bv_expr) (v : Z) :
  coeff < 2 ^ modulus W ->
  eval W v (mk_poly_term coeff xpow) = wrap W (coeff * eval W v xpow).
Proof.
  intros Hc. unfold mk_poly_term.
  destruct (is_power_of_two coeff) as [pow|] eqn:Hp; simpl.
  - apply is_power_of_two_spec in Hp. destruct Hp as [Hpow ->].
    assert (pow < modulus W).
    { apply (Z.pow_lt_mono_r_iff 2); try lia. pose proof (modulus_pos W). lia. }
    rewrite (wrap_small W pow) by lia.
    rewrite Z.shiftl_mul_pow2 by assumption.
    now rewrite Z.mul_comm.
  - apply wrap_mul_l.
Qed.

Lemma mk_poly_loop_value (W : nat) (v : Z) (p : list Z) :
  forall e xpow,
    coefficients_fit W p ->
    wrap W (eval W v (mk_poly_loop p e xpow))
    = wrap W (eval W v e + eval W v xpow * poly_value p v).
Proof.
  induction p as [|c rest IH]; intros e xpow Hfit.
  - simpl. f_equal. lia.
  - inversion Hfit as [|c' rest' Hc Hrest]; subst.
    cbn [mk_poly_loop poly_value].
    set (e' := if c =? 0 then e else mk_bv_add e (mk_poly_term c xpow)).
    assert (He' : wrap W (eval W v e') = wrap W (eval W v e + c * eval W v xpow)).
    { subst e'. destruct (Z.eqb_spec c 0) as [->|Hnz].
      - f_equal. lia.
      - cbn [eval]. rewrite wrap_wrap, mk_poly_term_value by assumption.
        apply wrap_add_r. }
    destruct rest as [|c1 rest].
    + rewrite He'. f_equal. simpl. lia.
    + rewrite (IH e' (mk_bv_mul xpow bv_x) Hrest).
      cbn [eval].
      rewrite <- wrap_add_r, wrap_mul_l, wrap_add_r.
      replace (eval W v e + eval W v xpow * (c + v * poly_value (c1 :: rest) v))
        with ((eval W v e + c * eval W v xpow)
              + eval W v xpow * v * poly_value (c1 :: rest) v) by ring.
      apply wrap_add_congr; [exact He' | reflexivity].
Qed.

Lemma mk_poly_loop_wrapped (W : nat) (v : Z) (p : list Z) :
  forall e xpow,
    wrap W (eval W v e) = eval W v e ->
    wrap W (eval W v (mk_poly_loop p e xpow)) = eval W v (mk_poly_loop p e xpow).
Proof.
  induction p as [|c rest IH]; intros e xpow He; [exact He|].
  cbn [mk_poly_loop].
  assert (He' : wrap W (eval W v (if c =? 0 then e
                                  else mk_bv_add e (mk_poly_term c xpow)))
                = eval W v (if c =? 0 then e
                            else mk_bv_add e (mk_poly_term c xpow))).
  { destruct (c =? 0); [exact He|]. cbn [eval]. apply wrap_wrap. }
  destruct rest; [exact He'|]. now apply IH.
Qed.

(** The encoder is right on every polynomial whose power-of-two
    coefficients have an exponent that fits a numeral of the width: all
    coefficients below [2^(2^W)], and also all negative ones. *)
Lemma mk_poly_value (W : nat) (p : univariate) (v : Z) :
  coefficients_fit W p ->
  eval W v (mk_poly p) = wrap W (poly_value p v).
Proof.
  intros Hfit. destruct p as [|c0 rest].
  - reflexivity.
  - inversion Hfit as [|c' rest' Hc Hrest]; subst.
    unfold mk_poly.
    rewrite <- mk_poly_loop_wrapped by (simpl; apply wrap_wrap).
    rewrite mk_poly_loop_value by assumption.
    cbn [eval mk_numeral poly_value].
    rewrite wrap_add_l. reflexivity.
Qed.

(* ================================================================== *)
(** * What each member function does to the state *)

Lemma add_inv (e : bool_expr) (sign : bool) (dep : N)
  (u u' : univariate_bitblast_solver) :
  add e sign dep u = Some u' ->
  exists top below,
    model_cache u = top :: below /\
    u' = {| bit_width := bit_width u;
            m_scope_level := m_scope_level u;
            model_cache := -1 :: below;
            s := solver_assert_expr (if sign then mk_not e else e)
                   (symbol_num dep) (s u) |}.
Proof.
  unfold add, reset_cache. destruct u as [W l c sv]; simpl.
  destruct c as [|top below]; [discriminate|].
  intros [= <-]. now exists top, below.
Qed.

Lemma push_inv (u u' : univariate_bitblast_solver) :
  push u = Some u' ->
  exists top below,
    model_cache u = top :: below /\
    u' = {| bit_width := bit_width u;
            m_scope_level := unsigned_wrap (m_scope_level u + 1);
            model_cache := top :: top :: below;
            s := solver_push (s u) |}.
Proof.
  unfold push, push_cache. destruct u as [W l c sv]; simpl.
  destruct c as [|top below]; [discriminate|].
  intros [= <-]. now exists top, below.
Qed.

Lemma pop_inv (n : Z) (u u' : univariate_bitblast_solver) :
  pop n u = Some u' ->
  exists top below,
    n <= m_scope_level u /\
    model_cache u = top :: below /\
    u' = {| bit_width := bit_width u;
            m_scope_level := unsigned_wrap (m_scope_level u - n);
            model_cache := below;
            s := solver_pop n (s u) |}.
Proof.
  unfold pop, pop_cache, scope_level. destruct u as [W l c sv]; simpl.
  destruct (Z.ltb_spec l n); [discriminate|].
  destruct c as [|top below]; [discriminate|].
  intros [= <-]. now exists top, below.
Qed.

Lemma model_inv (u u' : univariate_bitblast_solver) (val : Z) :
  model u = Some (val, u') ->
  exists top below,
    model_cache u = top :: below /\
    ((0 <= top /\ val = top /\ u' = u) \/
     (top < 0 /\ last_result (s u) = Some (r_sat val) /\
      u' = {| bit_width := bit_width u;
              m_scope_level := m_scope_level u;
              model_cache := val :: below;
              s := snd (solver_get_model (s u)) |})).
Proof.
  unfold model. destruct u as [W l c sv]; simpl.
  destruct c as [|top below]; [discriminate|].
  destruct (Z.ltb_spec top 0) as [Hneg|Hpos].
  - destruct (last_result sv) as [[v|core|]|] eqn:Hlast; try discriminate.
    intros [= <- <-]. exists top, below. split; [reflexivity|].
    right. split; [lia|split; reflexivity].
  - intros [= <- <-]. exists top, below. split; [reflexivity|]. now left.
Qed.

Lemma assertions_assert_expr (e : bool_expr) (a : symbol) (sv : solver) :
  assertions (solver_assert_expr e a sv) = (e, a) :: assertions sv.
Proof.
  unfold assertions, solver_assert_expr; simpl.
  now destruct (scopes sv).
Qed.

(** Splits the first binding of a failed-or-not computation in [H]. *)
Ltac bind_inv H :=
  match type of H with
  | match ?c with Some _ => _ | None => _ end = Some _ =>
      let E := fresh "E" in
      destruct c as [?|] eqn:E; [|discriminate H]
  end.

(* ================================================================== *)
(** * Assertions, scope by scope *)

Lemma models_cons (W : nat) (e : bool_expr) (a : symbol)
  (A : list assertion) (v : Z) :
  models W ((e, a) :: A) v <-> holds W v e = true /\ models W A v.
Proof.
  unfold models, holds_all; simpl. rewrite andb_true_iff. tauto.
Qed.

Lemma holds_all_filter (W : nat) (v : Z) (f : assertion -> bool)
  (A : list assertion) :
  holds_all W v A = true -> holds_all W v (filter f A) = true.
Proof.
  unfold holds_all. rewrite !forallb_forall.
  intros H a Ha. apply filter_In in Ha. now apply H.
Qed.

Lemma model_fresh (u : univariate_bitblast_solver) (top : Z) (below : list Z)
  (m : Z) :
  model_cache u = top :: below -> top < 0 ->
  last_result (s u) = Some (r_sat m) ->
  model u = Some (m, {| bit_width := bit_width u;
                        m_scope_level := m_scope_level u;
                        model_cache := m :: below;
                        s := snd (solver_get_model (s u)) |}).
Proof.
  intros Hc Hneg Hlast. unfold model. rewrite Hc.
  replace (top <? 0) with true by (symmetry; now apply Z.ltb_lt).
  unfold solver_get_model. now rewrite Hlast.
Qed.

Lemma model_cached (u : univariate_bitblast_solver) (top : Z) (below : list Z) :
  model_cache u = top :: below -> 0 <= top -> model u = Some (top, u).
Proof.
  intros Hc Hpos. unfold model. rewrite Hc.
  now replace (top <? 0) with false by (symmetry; now apply Z.ltb_ge).
Qed.

(** What [pop(n)] does, for every [n]: one cache frame goes, whatever [n]. *)
Lemma pop_effect (n : Z) (u : univariate_bitblast_solver) (top : Z)
  (below : list Z) :
  n <= scope_level u -> model_cache u = top :: below ->
  pop n u = Some {| bit_width := bit_width u;
                    m_scope_level := unsigned_wrap (m_scope_level u - n);
                    model_cache := below;
                    s := solver_pop n (s u) |}.
Proof.
  intros Hn Hc. unfold pop, pop_cache.
  replace (scope_level u <? n) with false by (symmetry; now apply Z.ltb_ge).
  cbn [model_cache set_scope_level]. now rewrite Hc.
Qed.

(** The current scope's share of consistency. *)
Lemma consistent_cache {dp : decision_procedure}
  (u : univariate_bitblast_solver) :
  consistent u -> cache_consistent u.
Proof.
  intros [Hf _] top below Hc Hpos. rewrite Hc in Hf.
  unfold in_force, assertions.
  destruct (scopes (s u)) as [|f fs]; [contradiction|].
  now apply Hf.
Qed.

(* ================================================================== *)
(** * One bit at a time *)

Lemma high_split (k : nat) (x : Z) :
  high k x = 2 * high (S k) x + Z.b2z (Z.testbit x (Z.of_nat k)).
Proof.
  unfold high.
  rewrite Z.testbit_spec' by lia.
  rewrite Nat2Z.inj_succ, Z.pow_succ_r by lia.
  assert (0 < 2 ^ Z.of_nat k) by (apply Z.pow_pos_nonneg; lia).
  replace (2 * 2 ^ Z.of_nat k) with (2 ^ Z.of_nat k * 2) by lia.
  rewrite <- Z.div_div by lia.
  pose proof (Z.div_mod (x / 2 ^ Z.of_nat k) 2). lia.
Qed.

Lemma high_0 (x : Z) : high 0 x = x.
Proof. unfold high. simpl. apply Z.div_1_r. Qed.

Lemma high_width (W : nat) (x : Z) : 0 <= x < modulus W -> high W x = 0.
Proof. unfold high, modulus. intros. now apply Z.div_small. Qed.

Lemma high_eq_step (k : nat) (x y : Z) :
  high k x = high k y <->
  high (S k) x = high (S k) y /\
  Z.testbit x (Z.of_nat k) = Z.testbit y (Z.of_nat k).
Proof.
  rewrite (high_split k x), (high_split k y).
  destruct (Z.testbit x (Z.of_nat k)), (Z.testbit y (Z.of_nat k));
    cbn [Z.b2z]; (split; [intros H; first [split; [lia|reflexivity] | exfalso; lia]
                   |intros [H1 H2]; first [discriminate H2 | lia]]).
Qed.

Lemma holds_bit_assertion (W k : nat) (b : bool) (x : Z) :
  holds W x (fst (bit_assertion k b)) = true <-> Z.testbit x (Z.of_nat k) = b.
Proof.
  destruct b; cbn [bit_assertion fst holds eval].
  - tauto.
  - apply negb_true_iff.
Qed.

(** Forcing bit [k] on top of the bits above it. *)
Lemma forced_step (W : nat) (A F F' : list assertion) (k : nat)
  (val val' : Z) (b : bool) :
  (forall x, models W F x <-> models W A x /\ high (S k) x = high (S k) val) ->
  F' = bit_assertion k b :: F ->
  high (S k) val' = high (S k) val ->
  Z.testbit val' (Z.of_nat k) = b ->
  forall x, models W F' x <-> models W A x /\ high k x = high k val'.
Proof.
  intros HF -> Hhigh Hbit x.
  unfold bit_assertion at 1. rewrite models_cons.
  change (holds W x (if b then mk_bit2bool bv_x k else mk_not (mk_bit2bool bv_x k)))
    with (holds W x (fst (bit_assertion k b))).
  rewrite holds_bit_assertion, (high_eq_step k x val'), HF, Hhigh, Hbit. tauto.
Qed.

Lemma least_step (k : nat) (val val' x : Z) :
  high (S k) val <= high (S k) x ->
  high (S k) val' = high (S k) val ->
  Z.testbit val' (Z.of_nat k) = false ->
  high k val' <= high k x.
Proof.
  intros Hle Hhigh Hbit.
  rewrite (high_split k val'), (high_split k x), Hhigh, Hbit.
  destruct (Z.testbit x (Z.of_nat k)); cbn [Z.b2z]; lia.
Qed.

Lemma least_step_forced (k : nat) (val x : Z) :
  high (S k) val <= high (S k) x ->
  (high (S k) x = high (S k) val -> Z.testbit x (Z.of_nat k) = true) ->
  high k val <= high k x.
Proof.
  intros Hle Hbit.
  rewrite (high_split k val), (high_split k x).
  destruct (Z.eq_dec (high (S k) x) (high (S k) val)) as [E|E].
  - rewrite (Hbit E), E. destruct (Z.testbit val (Z.of_nat k)); cbn [Z.b2z]; lia.
  - destruct (Z.testbit val (Z.of_nat k)), (Z.testbit x (Z.of_nat k));
      cbn [Z.b2z]; lia.
Qed.

Lemma greatest_step (k : nat) (val val' x : Z) :
  high (S k) x <= high (S k) val ->
  high (S k) val' = high (S k) val ->
  Z.testbit val' (Z.of_nat k) = true ->
  high k x <= high k val'.
Proof.
  intros Hle Hhigh Hbit.
  rewrite (high_split k val'), (high_split k x), Hhigh, Hbit.
  destruct (Z.testbit x (Z.of_nat k)); cbn [Z.b2z]; lia.
Qed.

Lemma greatest_step_forced (k : nat) (val x : Z) :
  high (S k) x <= high (S k) val ->
  (high (S k) x = high (S k) val -> Z.testbit x (Z.of_nat k) = false) ->
  high k x <= high k val.
Proof.
  intros Hle Hbit.
  rewrite (high_split k val), (high_split k x).
  destruct (Z.eq_dec (high (S k) x) (high (S k) val)) as [E|E].
  - rewrite (Hbit E), E. destruct (Z.testbit val (Z.of_nat k)); cbn [Z.b2z]; lia.
  - destruct (Z.testbit val (Z.of_nat k)), (Z.testbit x (Z.of_nat k));
      cbn [Z.b2z]; lia.
Qed.

(* ================================================================== *)
(** * What the extremal search leaves behind *)

(** Inverts every member function call recorded in the context. *)
Ltac inv_calls :=
  repeat match goal with
    | H : push _ = Some ?u' |- _ =>
        apply push_inv in H; destruct H as (? & ? & ? & ?); subst u'
    | H : pop _ _ = Some ?u' |- _ =>
        apply pop_inv in H; destruct H as (? & ? & ? & ? & ?); subst u'
    | H : add_bit0 _ _ _ = Some ?u' |- _ =>
        apply add_inv in H; destruct H as (? & ? & ? & ?); subst u'
    | H : add_bit1 _ _ _ = Some ?u' |- _ =>
        apply add_inv in H; destruct H as (? & ? & ? & ?); subst u'
    | H : model _ = Some (_, ?u') |- _ =>
        apply model_inv in H;
        destruct H as (? & ? & ? & [(? & ? & ?)|(? & ? & ?)]); subst u'
    | H : check _ = (_, ?u') |- _ =>
        unfold check, solver_check_sat in H; injection H as ? ?; subst u'
    end.

Ltac list_eqs :=
  cbn [model_cache bit_width m_scope_level s scopes last_result requests
       set_solver set_model_cache set_scope_level
       solver_push solver_pop solver_get_model snd fst] in *;
  change (Z.to_nat 1) with 1%nat in *;
  cbn [skipn] in *;
  repeat match goal with
    | H : _ :: _ = _ :: _ |- _ => injection H as ? ?; subst
    | H : Some _ = Some _ |- _ => injection H as ?; subst
    end.

Lemma unsigned_wrap_range (z : Z) : 0 <= unsigned_wrap z < 2 ^ 32.
Proof. unfold unsigned_wrap. apply Z.mod_pos_bound. lia. Qed.

(** A scope opened and closed again is the scope level it was. *)
Lemma scope_level_push_pop (l : Z) :
  0 <= l < 2 ^ 32 -> 1 <= unsigned_wrap (l + 1) ->
  unsigned_wrap (unsigned_wrap (l + 1) - 1) = l.
Proof.
  unfold unsigned_wrap. intros Hl H1.
  destruct (Z.eq_dec (l + 1) (2 ^ 32)) as [E|E].
  - rewrite E, Z.mod_same in H1; lia.
  - rewrite (Z.mod_small (l + 1)) by lia.
    replace (l + 1 - 1) with l by lia. apply Z.mod_small. lia.
Qed.

Lemma tl_assert_expr (e : bool_expr) (a : symbol) (sv : solver) :
  tl (scopes (solver_assert_expr e a sv)) = tl (scopes sv).
Proof. unfold solver_assert_expr; simpl. now destruct (scopes sv). Qed.

(** The loop of [find_min] touches the current scope only: the scopes
    below, the cache frames below, the width and the scope level are those
    at its start, whichever way the loop ends. *)
(** Closes a frame goal from the induction hypothesis [H]. *)
Ltac frame_done H :=
  try rewrite tl_assert_expr in H;
  destruct H as (Hw & Hs & Hc & Hl); rewrite Hw, Hs, Hc;
  repeat match goal with Hm : model_cache _ = _ |- _ => rewrite Hm end;
  cbn [tl]; repeat split; auto;
  intros Hr; rewrite Hl; rewrite scope_level_push_pop; auto.

(** The loop of [find_min] touches the current scope only: the scopes
    below, the cache frames below, the width and the scope level are those
    at its start, whichever way the loop ends. *)
Lemma find_min_loop_frame {dp : decision_procedure} (k : nat) :
  forall val u ok v u',
    find_min_loop k val u = Some (ok, v, u') ->
    bit_width u' = bit_width u /\
    tl (scopes (s u')) = tl (scopes (s u)) /\
    tl (model_cache u') = tl (model_cache u) /\
    (0 <= m_scope_level u < 2 ^ 32 -> m_scope_level u' = m_scope_level u).
Proof.
  induction k as [|k IH]; intros val u ok v u' H.
  - injection H as <- <- <-. auto.
  - cbn [find_min_loop] in H.
    destruct (negb (Z.testbit val (Z.of_nat k))).
    + bind_inv H. apply IH in H. inv_calls. list_eqs. frame_done H.
    + bind_inv H. bind_inv H.
      destruct (check u1) as [result u2] eqn:Hcheck.
      destruct result.
      * (* unsat *)
        bind_inv H. bind_inv H. apply IH in H. inv_calls. list_eqs.
        frame_done H.
      * (* unknown *)
        bind_inv H. injection H as <- <- <-. inv_calls; list_eqs.
        repeat match goal with Hm : model_cache _ = _ |- _ => rewrite Hm end.
        repeat split; auto.
        intros Hr. now apply scope_level_push_pop.
      * (* sat *)
        destruct (model u2) as [[m u3]|] eqn:Hm1; [|discriminate].
        destruct (m <? val); [|discriminate].
        destruct (model u3) as [[val' u4]|] eqn:Hm2; [|discriminate].
        bind_inv H. bind_inv H. apply IH in H.
        inv_calls; list_eqs; try lia; frame_done H.
Qed.

(** The loop of [find_max] touches the current scope only, as the loop of
    [find_min]. *)
Lemma find_max_loop_frame {dp : decision_procedure} (k : nat) :
  forall val u ok v u',
    find_max_loop k val u = Some (ok, v, u') ->
    bit_width u' = bit_width u /\
    tl (scopes (s u')) = tl (scopes (s u)) /\
    tl (model_cache u') = tl (model_cache u) /\
    (0 <= m_scope_level u < 2 ^ 32 -> m_scope_level u' = m_scope_level u).
Proof.
  induction k as [|k IH]; intros val u ok v u' H.
  - injection H as <- <- <-. auto.
  - cbn [find_max_loop] in H.
    destruct (Z.testbit val (Z.of_nat k)).
    + bind_inv H. apply IH in H. inv_calls. list_eqs. frame_done H.
    + bind_inv H. bind_inv H.
      destruct (check u1) as [result u2] eqn:Hcheck.
      destruct result.
      * bind_inv H. bind_inv H. apply IH in H. inv_calls. list_eqs.
        frame_done H.
      * bind_inv H. injection H as <- <- <-. inv_calls; list_eqs.
        repeat match goal with Hm : model_cache _ = _ |- _ => rewrite Hm end.
        repeat split; auto.
        intros Hr. now apply scope_level_push_pop.
      * destruct (model u2) as [[m u3]|] eqn:Hm1; [|discriminate].
        destruct (val <? m); [|discriminate].
        destruct (model u3) as [[val' u4]|] eqn:Hm2; [|discriminate].
        bind_inv H. bind_inv H. apply IH in H.
        inv_calls; list_eqs; try lia; frame_done H.
Qed.

Lemma model_frame (u u' : univariate_bitblast_solver) (val : Z) :
  model u = Some (val, u') ->
  bit_width u' = bit_width u /\ scopes (s u') = scopes (s u) /\
  m_scope_level u' = m_scope_level u /\
  tl (model_cache u') = tl (model_cache u) /\
  hd_error (model_cache u') = Some val.
Proof.
  intros H. apply model_inv in H.
  destruct H as (top & below & Hc & [(Hpos & -> & ->)|(Hneg & Hlast & ->)]).
  - rewrite Hc. auto.
  - rewrite Hc. cbn. auto.
Qed.

(** [find_min], seen from outside.  On success the closing [pop(1)] takes
    the forced bits away with the scope they were asserted in: the assertion
    stack is the one at entry, and so is the scope level; the cache of the
    current scope holds the model that the search started from.  On failure
    the scope that the search opened is still open. *)
Lemma find_min_frame {dp : decision_procedure}
  (u u' : univariate_bitblast_solver) (ok : bool) (v : Z) :
  find_min u = Some (ok, v, u') ->
  bit_width u' = bit_width u /\
  if ok then
    scopes (s u') = scopes (s u) /\
    tl (model_cache u') = tl (model_cache u) /\
    (0 <= m_scope_level u < 2 ^ 32 -> m_scope_level u' = m_scope_level u)
  else
    tl (scopes (s u')) = scopes (s u) /\
    m_scope_level u' = unsigned_wrap (m_scope_level u + 1).
Proof.
  intros H. unfold find_min in H.
  destruct (model u) as [[val u0]|] eqn:Hmodel; [|discriminate].
  apply model_frame in Hmodel. destruct Hmodel as (Mw & Ms & Ml & Mc & _).
  bind_inv H.
  destruct (find_min_loop (bit_width u1) val u1) as [[[ok' val'] u2]|]
    eqn:Hloop; [|discriminate].
  apply find_min_loop_frame in Hloop.
  destruct Hloop as (Lw & Ls & Lc & Ll).
  apply push_inv in E. destruct E as (top & below & Hc & ->).
  cbn [bit_width s scopes solver_push tl model_cache m_scope_level] in *.
  specialize (Ll (unsigned_wrap_range _)).
  destruct ok'.
  - bind_inv H. injection H as <- <- <-.
    apply pop_inv in E. destruct E as (top' & below' & Hn & Hc' & ->).
    cbn [bit_width s scopes solver_pop tl model_cache m_scope_level].
    change (Z.to_nat 1) with 1%nat.
    rewrite Hc' in Lc. cbn [tl] in Lc. subst below'.
    rewrite Hc in Mc. cbn [tl] in Mc.
    split; [congruence|]. split; [|split].
    + destruct (scopes (s u2)); cbn [skipn tl] in *; congruence.
    + rewrite <- Mc. reflexivity.
    + intros Hr. rewrite Ll, Ml. rewrite Ll, Ml in Hn.
      now apply scope_level_push_pop.
  - injection H as <- <- <-.
    split; [congruence|]. split; congruence.
Qed.

Lemma find_max_frame {dp : decision_procedure}
  (u u' : univariate_bitblast_solver) (ok : bool) (v : Z) :
  find_max u = Some (ok, v, u') ->
  bit_width u' = bit_width u /\
  if ok then
    scopes (s u') = scopes (s u) /\
    tl (model_cache u') = tl (model_cache u) /\
    (0 <= m_scope_level u < 2 ^ 32 -> m_scope_level u' = m_scope_level u)
  else
    tl (scopes (s u')) = scopes (s u) /\
    m_scope_level u' = unsigned_wrap (m_scope_level u + 1).
Proof.
  intros H. unfold find_max in H.
  destruct (model u) as [[val u0]|] eqn:Hmodel; [|discriminate].
  apply model_frame in Hmodel. destruct Hmodel as (Mw & Ms & Ml & Mc & _).
  bind_inv H.
  destruct (find_max_loop (bit_width u1) val u1) as [[[ok' val'] u2]|]
    eqn:Hloop; [|discriminate].
  apply find_max_loop_frame in Hloop.
  destruct Hloop as (Lw & Ls & Lc & Ll).
  apply push_inv in E. destruct E as (top & below & Hc & ->).
  cbn [bit_width s scopes solver_push tl model_cache m_scope_level] in *.
  specialize (Ll (unsigned_wrap_range _)).
  destruct ok'.
  - bind_inv H. injection H as <- <- <-.
    apply pop_inv in E. destruct E as (top' & below' & Hn & Hc' & ->).
    cbn [bit_width s scopes solver_pop tl model_cache m_scope_level].
    change (Z.to_nat 1) with 1%nat.
    rewrite Hc' in Lc. cbn [tl] in Lc. subst below'.
    rewrite Hc in Mc. cbn [tl] in Mc.
    split; [congruence|]. split; [|split].
    + destruct (scopes (s u2)); cbn [skipn tl] in *; congruence.
    + rewrite <- Mc. reflexivity.
    + intros Hr. rewrite Ll, Ml. rewrite Ll, Ml in Hn.
      now apply scope_level_push_pop.
  - injection H as <- <- <-.
    split; [congruence|]. split; congruence.
Qed.

(* ================================================================== *)
(** * The extremal search finds the extremum *)

Lemma assertions_bit_pushed (e : bool_expr) (a : symbol) (sv : solver) :
  assertions (solver_assert_expr e a (solver_push sv)) = (e, a) :: assertions sv.
Proof. reflexivity. Qed.

(** The assertions in force once one more bit is forced. *)
Ltac in_force_bit :=
  unfold in_force; cbn [s]; rewrite assertions_assert_expr; reflexivity.

(** At entry every bit is still free: the invariant holds at [k = W]. *)
Lemma min_invariant_entry (u : univariate_bitblast_solver) (val : Z) :
  models (bit_width u) (in_force u) val ->
  min_invariant (bit_width u) (in_force u) (bit_width u) val u.
Proof.
  intros Hval. constructor; [reflexivity|exact Hval| |].
  - intros y. split; [|tauto].
    intros Hy. split; [exact Hy|].
    rewrite (high_width _ y), (high_width _ val);
      [reflexivity|apply Hval|apply Hy].
  - intros y Hy.
    rewrite (high_width _ y), (high_width _ val); [lia|apply Hval|apply Hy].
Qed.

Lemma max_invariant_entry (u : univariate_bitblast_solver) (val : Z) :
  models (bit_width u) (in_force u) val ->
  max_invariant (bit_width u) (in_force u) (bit_width u) val u.
Proof.
  intros Hval. constructor; [reflexivity|exact Hval| |].
  - intros y. split; [|tauto].
    intros Hy. split; [exact Hy|].
    rewrite (high_width _ y), (high_width _ val);
      [reflexivity|apply Hval|apply Hy].
  - intros y Hy.
    rewrite (high_width _ y), (high_width _ val); [lia|apply Hval|apply Hy].
Qed.

Section Extremal.
Context {dp : decision_procedure} (dp_sound : sound dp).

Lemma unsat_no_model (W : nat) (A : list assertion) (core : list symbol) :
  check_sat_core W A = r_unsat core -> forall x, ~ models W A x.
Proof.
  intros Hdp x [Hx Hall].
  destruct (unsat_sound dp dp_sound W A core Hdp) as [_ Hno].
  specialize (Hno x Hx).
  rewrite (holds_all_filter W x _ A Hall) in Hno. discriminate.
Qed.

Lemma find_min_loop_least (W : nat) (A : list assertion) (k : nat) :
  forall val u v u',
    min_invariant W A k val u ->
    find_min_loop k val u = Some (true, v, u') ->
    models W A v /\ forall x, models W A x -> v <= x.
Proof.
  induction k as [|k IH]; intros val u v u' Inv H.
  - injection H as <- <-. destruct Inv as [_ Hval _ Hleast].
    split; [exact Hval|]. intros x Hx. specialize (Hleast x Hx).
    now rewrite !high_0 in Hleast.
  - cbn [find_min_loop] in H.
    destruct Inv as [Hw Hval Hforced Hleast]. subst W.
    destruct (Z.testbit val (Z.of_nat k)) eqn:Hbit; cbn [negb] in H.
    + (* bit [k] of [val] is set: try to clear it *)
      bind_inv H. bind_inv H.
      destruct (check u1) as [result u2] eqn:Hcheck.
      inv_calls. list_eqs.
      rewrite assertions_bit_pushed in H. fold (in_force u) in H.
      destruct (check_sat_core (bit_width u)
                  ((mk_not (mk_bit2bool bv_x k), symbol_num 0) :: in_force u))
        as [m|core|] eqn:Hdp; cbn [lbool_of] in H.
      * (* sat: the model is the new [val] *)
        pose proof (sat_sound dp dp_sound _ _ _ Hdp) as Hm.
        apply models_cons in Hm. destruct Hm as [Hmbit Hm].
        apply (holds_bit_assertion (bit_width u) k false m) in Hmbit.
        apply Hforced in Hm. destruct Hm as [HmA Hmhigh].
        erewrite model_fresh in H; [|reflexivity|lia|reflexivity].
        destruct (m <? val); [|discriminate].
        erewrite model_cached in H; [|reflexivity|destruct HmA; lia].
        bind_inv H. bind_inv H. inv_calls. list_eqs.
        apply IH in H; [exact H|].
        constructor; [reflexivity|exact HmA| |].
        -- apply (forced_step _ _ _ _ _ _ _ false Hforced);
             [in_force_bit|exact Hmhigh|exact Hmbit].
        -- intros y Hy. eapply least_step; eauto.
      * (* unsat: bit [k] stays set *)
        bind_inv H. bind_inv H. inv_calls. list_eqs.
        apply IH in H; [exact H|].
        constructor; [reflexivity|exact Hval| |].
        -- apply (forced_step _ _ _ _ _ _ _ true Hforced);
             [in_force_bit|reflexivity|exact Hbit].
        -- intros y Hy. apply least_step_forced; [now apply Hleast|].
           intros Hhigh.
           destruct (Z.testbit y (Z.of_nat k)) eqn:Hybit; [reflexivity|].
           exfalso. apply (unsat_no_model _ _ _ Hdp y).
           apply models_cons. split.
           ++ now apply (holds_bit_assertion _ k false).
           ++ apply Hforced. now split.
      * (* unknown *)
        bind_inv H. discriminate H.
    + (* bit [k] of [val] is clear already *)
      bind_inv H. inv_calls. list_eqs.
      apply IH in H; [exact H|].
      constructor; [reflexivity|exact Hval| |].
      * apply (forced_step _ _ _ _ _ _ _ false Hforced);
          [in_force_bit|reflexivity|exact Hbit].
      * intros y Hy. eapply least_step; eauto.
Qed.

Lemma find_max_loop_greatest (W : nat) (A : list assertion) (k : nat) :
  forall val u v u',
    max_invariant W A k val u ->
    find_max_loop k val u = Some (true, v, u') ->
    models W A v /\ forall x, models W A x -> x <= v.
Proof.
  induction k as [|k IH]; intros val u v u' Inv H.
  - injection H as <- <-. destruct Inv as [_ Hval _ Hgreatest].
    split; [exact Hval|]. intros x Hx. specialize (Hgreatest x Hx).
    now rewrite !high_0 in Hgreatest.
  - cbn [find_max_loop] in H.
    destruct Inv as [Hw Hval Hforced Hgreatest]. subst W.
    destruct (Z.testbit val (Z.of_nat k)) eqn:Hbit.
    + (* bit [k] of [val] is set already *)
      bind_inv H. inv_calls. list_eqs.
      apply IH in H; [exact H|].
      constructor; [reflexivity|exact Hval| |].
      * apply (forced_step _ _ _ _ _ _ _ true Hforced);
          [in_force_bit|reflexivity|exact Hbit].
      * intros y Hy. eapply greatest_step; eauto.
    + (* bit [k] of [val] is clear: try to set it *)
      bind_inv H. bind_inv H.
      destruct (check u1) as [result u2] eqn:Hcheck.
      inv_calls. list_eqs.
      rewrite assertions_bit_pushed in H. fold (in_force u) in H.
      destruct (check_sat_core (bit_width u)
                  ((mk_bit2bool bv_x k, symbol_num 0) :: in_force u))
        as [m|core|] eqn:Hdp; cbn [lbool_of] in H.
      * (* sat: the model is the new [val] *)
        pose proof (sat_sound dp dp_sound _ _ _ Hdp) as Hm.
        apply models_cons in Hm. destruct Hm as [Hmbit Hm].
        apply (holds_bit_assertion (bit_width u) k true m) in Hmbit.
        apply Hforced in Hm. destruct Hm as [HmA Hmhigh].
        erewrite model_fresh in H; [|reflexivity|lia|reflexivity].
        destruct (val <? m); [|discriminate].
        erewrite model_cached in H; [|reflexivity|destruct HmA; lia].
        bind_inv H. bind_inv H. inv_calls. list_eqs.
        apply IH in H; [exact H|].
        constructor; [reflexivity|exact HmA| |].
        -- apply (forced_step _ _ _ _ _ _ _ true Hforced);
             [in_force_bit|exact Hmhigh|exact Hmbit].
        -- intros y Hy. eapply greatest_step; eauto.
      * (* unsat: bit [k] stays clear *)
        bind_inv H. bind_inv H. inv_calls. list_eqs.
        apply IH in H; [exact H|].
        constructor; [reflexivity|exact Hval| |].
        -- apply (forced_step _ _ _ _ _ _ _ false Hforced);
             [in_force_bit|reflexivity|exact Hbit].
        -- intros y Hy. apply greatest_step_forced; [now apply Hgreatest|].
           intros Hhigh.
           destruct (Z.testbit y (Z.of_nat k)) eqn:Hybit; [|reflexivity].
           exfalso. apply (unsat_no_model _ _ _ Hdp y).
           apply models_cons. split.
           ++ now apply (holds_bit_assertion _ k true).
           ++ apply Hforced. now split.
      * (* unknown *)
        bind_inv H. discriminate H.
Qed.

(** The value that [model()] returns on a consistent state satisfies the
    assertions in force. *)
Lemma model_models (u u' : univariate_bitblast_solver) (val : Z) :
  cache_consistent u -> result_current u ->
  model u = Some (val, u') ->
  models (bit_width u) (in_force u) val /\
  bit_width u' = bit_width u /\ in_force u' = in_force u.
Proof.
  intros Hcache Hres H.
  apply model_inv in H.
  destruct H as (top & below & Hc & [(Hpos & -> & ->)|(Hneg & Hlast & ->)]).
  - split; [|split; reflexivity]. eapply Hcache; eauto.
  - split; [|split; reflexivity].
    apply (sat_sound dp dp_sound). symmetry. now apply Hres.
Qed.

Lemma find_min_least (u u' : univariate_bitblast_solver) (v : Z) :
  cache_consistent u -> result_current u ->
  find_min u = Some (true, v, u') ->
  models (bit_width u) (in_force u) v /\
  forall x, models (bit_width u) (in_force u) x -> v <= x.
Proof.
  intros Hcache Hres H. unfold find_min in H.
  destruct (model u) as [[val u0]|] eqn:Hmodel; [|discriminate].
  destruct (model_models _ _ _ Hcache Hres Hmodel) as (Hval & Hw & HA).
  clear Hmodel. bind_inv H.
  destruct (find_min_loop (bit_width u1) val u1) as [[[ok val'] u2]|]
    eqn:Hloop; [|discriminate].
  destruct ok; [|discriminate]. bind_inv H. injection H as <- <-.
  inv_calls. cbn [bit_width] in Hloop. rewrite Hw in Hloop.
  apply (find_min_loop_least (bit_width u) (in_force u)) in Hloop;
    [exact Hloop|].
  rewrite <- HA. rewrite <- HA in Hval.
  match goal with
  | |- min_invariant _ _ _ _ ?u1 => exact (min_invariant_entry u1 val Hval)
  end.
Qed.

Lemma find_max_greatest (u u' : univariate_bitblast_solver) (v : Z) :
  cache_consistent u -> result_current u ->
  find_max u = Some (true, v, u') ->
  models (bit_width u) (in_force u) v /\
  forall x, models (bit_width u) (in_force u) x -> x <= v.
Proof.
  intros Hcache Hres H. unfold find_max in H.
  destruct (model u) as [[val u0]|] eqn:Hmodel; [|discriminate].
  destruct (model_models _ _ _ Hcache Hres Hmodel) as (Hval & Hw & HA).
  clear Hmodel. bind_inv H.
  destruct (find_max_loop (bit_width u1) val u1) as [[[ok val'] u2]|]
    eqn:Hloop; [|discriminate].
  destruct ok; [|discriminate]. bind_inv H. injection H as <- <-.
  inv_calls. cbn [bit_width] in Hloop. rewrite Hw in Hloop.
  apply (find_max_loop_greatest (bit_width u) (in_force u)) in Hloop;
    [exact Hloop|].
  rewrite <- HA. rewrite <- HA in Hval.
  match goal with
  | |- max_invariant _ _ _ _ ?u1 => exact (max_invariant_entry u1 val Hval)
  end.
Qed.

End Extremal.

(* ================================================================== *)
(** * The extremal search returns *)

Lemma add_effect (e : bool_expr) (sign : bool) (dep : N)
  (u : univariate_bitblast_solver) (top : Z) (below : list Z) :
  model_cache u = top :: below ->
  add e sign dep u
  = Some {| bit_width := bit_width u;
            m_scope_level := m_scope_level u;
            model_cache := -1 :: below;
            s := solver_assert_expr (if sign then mk_not e else e)
                   (symbol_num dep) (s u) |}.
Proof. intros Hc. unfold add, reset_cache. now rewrite Hc. Qed.

Lemma push_effect (u : univariate_bitblast_solver) (top : Z)
  (below : list Z) :
  model_cache u = top :: below ->
  push u
  = Some {| bit_width := bit_width u;
            m_scope_level := unsigned_wrap (m_scope_level u + 1);
            model_cache := top :: top :: below;
            s := solver_push (s u) |}.
Proof.
  intros Hc. unfold push, push_cache.
  cbn [set_scope_level model_cache]. now rewrite Hc.
Qed.

Lemma unsigned_wrap_small (z : Z) : 0 <= z < 2 ^ 32 -> unsigned_wrap z = z.
Proof. apply Z.mod_small. Qed.

Lemma high_lt (k : nat) (x y : Z) : high k x < high k y -> x < y.
Proof.
  unfold high. intros H.
  destruct (Z.lt_ge_cases x y) as [Hlt|Hge]; [exact Hlt|].
  assert (0 < 2 ^ Z.of_nat k) by (apply Z.pow_pos_nonneg; lia).
  pose proof (Z.div_le_mono y x (2 ^ Z.of_nat k)). lia.
Qed.

(** A model with bit [k] clear under the same higher bits is smaller than
    a value with bit [k] set: [SASSERT(model() < val)] holds. *)
Lemma cleared_bit_lt (k : nat) (m val : Z) :
  high (S k) m = high (S k) val ->
  Z.testbit m (Z.of_nat k) = false -> Z.testbit val (Z.of_nat k) = true ->
  m < val.
Proof.
  intros Hhigh Hm Hval. apply (high_lt k).
  rewrite (high_split k m), (high_split k val), Hhigh, Hm, Hval.
  cbn [Z.b2z]. lia.
Qed.

(** [SASSERT(model() > val)], likewise. *)
Lemma set_bit_gt (k : nat) (m val : Z) :
  high (S k) m = high (S k) val ->
  Z.testbit m (Z.of_nat k) = true -> Z.testbit val (Z.of_nat k) = false ->
  val < m.
Proof.
  intros Hhigh Hm Hval. apply (high_lt k).
  rewrite (high_split k m), (high_split k val), Hhigh, Hm, Hval.
  cbn [Z.b2z]. lia.
Qed.

Section Returns.
Context {dp : decision_procedure} (dp_sound : sound dp).

Ltac tidy :=
  unfold set_solver, set_model_cache, set_scope_level, solver_get_model;
  cbn [bit_width m_scope_level model_cache s scopes last_result requests
       snd fst].

(** Rewrites the next call of the loop body by its effect. *)
Ltac next_call :=
  first
    [ erewrite push_effect by reflexivity
    | erewrite add_effect by reflexivity
    | erewrite pop_effect by
        (reflexivity ||
         (unfold scope_level; cbn [m_scope_level];
          rewrite ?unsigned_wrap_small by lia; lia)) ];
  tidy.

Ltac level_back :=
  cbn [m_scope_level];
  rewrite ?scope_level_push_pop
    by (try rewrite unsigned_wrap_small by lia; lia);
  lia.

Lemma find_min_loop_returns (W : nat) (A : list assertion) (k : nat) :
  forall val u,
    min_invariant W A k val u ->
    model_cache u <> [] ->
    0 <= m_scope_level u -> m_scope_level u + 1 < 2 ^ 32 ->
    exists ok v u',
      find_min_loop k val u = Some (ok, v, u') /\ model_cache u' <> [].
Proof.
  induction k as [|k IH]; intros val u Inv Hne Hl0 Hl1.
  - now exists true, val, u.
  - destruct (model_cache u) as [|top below] eqn:Hc; [contradiction|].
    destruct Inv as [Hw Hval Hforced Hleast]. subst W.
    cbn [find_min_loop].
    destruct (Z.testbit val (Z.of_nat k)) eqn:Hbit; cbn [negb].
    + unfold add_bit0, add_bit1, add_bit.
      erewrite push_effect by exact Hc.
      next_call.
      unfold check, solver_check_sat. tidy.
      rewrite assertions_bit_pushed. fold (in_force u).
      destruct (check_sat_core (bit_width u)
                  ((mk_not (mk_bit2bool bv_x k), symbol_num 0) :: in_force u))
        as [m|core|] eqn:Hdp; cbn [lbool_of].
      * pose proof (sat_sound dp dp_sound _ _ _ Hdp) as Hm.
        apply models_cons in Hm. destruct Hm as [Hmbit Hm].
        apply (holds_bit_assertion (bit_width u) k false m) in Hmbit.
        apply Hforced in Hm. destruct Hm as [HmA Hmhigh].
        erewrite model_fresh; [|reflexivity|lia|reflexivity]. tidy.
        replace (m <? val) with true
          by (symmetry; apply Z.ltb_lt; now apply (cleared_bit_lt k)).
        erewrite model_cached; [|reflexivity|destruct HmA; lia].
        next_call. next_call.
        apply IH; [|discriminate|level_back|level_back].
        constructor; [reflexivity|exact HmA| |].
        -- apply (forced_step _ _ _ _ _ _ _ false Hforced);
             [in_force_bit|exact Hmhigh|exact Hmbit].
        -- intros y Hy. eapply least_step; eauto.
      * next_call. next_call.
        apply IH; [|discriminate|level_back|level_back].
        constructor; [reflexivity|exact Hval| |].
        -- apply (forced_step _ _ _ _ _ _ _ true Hforced);
             [in_force_bit|reflexivity|exact Hbit].
        -- intros y Hy. apply least_step_forced; [now apply Hleast|].
           intros Hhigh.
           destruct (Z.testbit y (Z.of_nat k)) eqn:Hybit; [reflexivity|].
           exfalso. apply (unsat_no_model dp_sound _ _ _ Hdp y).
           apply models_cons. split.
           ++ now apply (holds_bit_assertion _ k false).
           ++ apply Hforced. now split.
      * next_call. do 3 eexists. split; [reflexivity|discriminate].
    + unfold add_bit0, add_bit.
      erewrite add_effect by exact Hc.
      apply IH; [|discriminate|exact Hl0|exact Hl1].
      constructor; [reflexivity|exact Hval| |].
      * apply (forced_step _ _ _ _ _ _ _ false Hforced);
          [in_force_bit|reflexivity|exact Hbit].
      * intros y Hy. eapply least_step; eauto.
Qed.

Lemma find_max_loop_returns (W : nat) (A : list assertion) (k : nat) :
  forall val u,
    max_invariant W A k val u ->
    model_cache u <> [] ->
    0 <= m_scope_level u -> m_scope_level u + 1 < 2 ^ 32 ->
    exists ok v u',
      find_max_loop k val u = Some (ok, v, u') /\ model_cache u' <> [].
Proof.
  induction k as [|k IH]; intros val u Inv Hne Hl0 Hl1.
  - now exists true, val, u.
  - destruct (model_cache u) as [|top below] eqn:Hc; [contradiction|].
    destruct Inv as [Hw Hval Hforced Hgreatest]. subst W.
    cbn [find_max_loop].
    destruct (Z.testbit val (Z.of_nat k)) eqn:Hbit; cycle 1.
    + unfold add_bit0, add_bit1, add_bit.
      erewrite push_effect by exact Hc.
      next_call.
      unfold check, solver_check_sat. tidy.
      rewrite assertions_bit_pushed. fold (in_force u).
      destruct (check_sat_core (bit_width u)
                  ((mk_bit2bool bv_x k, symbol_num 0) :: in_force u))
        as [m|core|] eqn:Hdp; cbn [lbool_of].
      * pose proof (sat_sound dp dp_sound _ _ _ Hdp) as Hm.
        apply models_cons in Hm. destruct Hm as [Hmbit Hm].
        apply (holds_bit_assertion (bit_width u) k true m) in Hmbit.
        apply Hforced in Hm. destruct Hm as [HmA Hmhigh].
        erewrite model_fresh; [|reflexivity|lia|reflexivity]. tidy.
        replace (val <? m) with true
          by (symmetry; apply Z.ltb_lt; now apply (set_bit_gt k)).
        erewrite model_cached; [|reflexivity|destruct HmA; lia].
        next_call. next_call.
        apply IH; [|discriminate|level_back|level_back].
        constructor; [reflexivity|exact HmA| |].
        -- apply (forced_step _ _ _ _ _ _ _ true Hforced);
             [in_force_bit|exact Hmhigh|exact Hmbit].
        -- intros y Hy. eapply greatest_step; eauto.
      * next_call. next_call.
        apply IH; [|discriminate|level_back|level_back].
        constructor; [reflexivity|exact Hval| |].
        -- apply (forced_step _ _ _ _ _ _ _ false Hforced);
             [in_force_bit|reflexivity|exact Hbit].
        -- intros y Hy. apply greatest_step_forced; [now apply Hgreatest|].
           intros Hhigh.
           destruct (Z.testbit y (Z.of_nat k)) eqn:Hybit; [|reflexivity].
           exfalso. apply (unsat_no_model dp_sound _ _ _ Hdp y).
           apply models_cons. split.
           ++ now apply (holds_bit_assertion _ k true).
           ++ apply Hforced. now split.
      * next_call. do 3 eexists. split; [reflexivity|discriminate].
    + unfold add_bit1, add_bit.
      erewrite add_effect by exact Hc.
      apply IH; [|discriminate|exact Hl0|exact Hl1].
      constructor; [reflexivity|exact Hval| |].
      * apply (forced_step _ _ _ _ _ _ _ true Hforced);
          [in_force_bit|reflexivity|exact Hbit].
      * intros y Hy. eapply greatest_step; eauto.
Qed.


(** On a consistent instance where [model()] has a value to return, and
    with room for two more scopes, [find_min] runs to its end: no assertion
    of the class fails on the way. *)
Lemma find_min_returns (u : univariate_bitblast_solver) :
  consistent u ->
  0 <= m_scope_level u -> m_scope_level u + 2 < 2 ^ 32 ->
  model u <> None ->
  exists ok v u', find_min u = Some (ok, v, u').
Proof.
  intros Hu Hl0 Hl1 Hmodel. unfold find_min.
  destruct (model u) as [[val u0]|] eqn:Hm; [clear Hmodel|contradiction].
  destruct (model_models dp_sound u u0 val (consistent_cache u Hu)
              (proj2 Hu) Hm) as (Hval & Hw & HA).
  apply model_frame in Hm. destruct Hm as (_ & _ & Ml & _ & Mhd).
  destruct (model_cache u0) as [|top below] eqn:Hc; [discriminate Mhd|].
  erewrite push_effect by exact Hc.
  match goal with
  | |- context [find_min_loop _ val ?u1] =>
      destruct (find_min_loop_returns (bit_width u) (in_force u)
                  (bit_width u) val u1)
        as (ok & v & u2 & Hloop & Hne)
  end.
  - rewrite <- Hw, <- HA. rewrite <- Hw, <- HA in Hval.
    match goal with
    | |- min_invariant _ _ _ _ ?u1 => exact (min_invariant_entry u1 val Hval)
    end.
  - discriminate.
  - cbn [m_scope_level]. apply unsigned_wrap_range.
  - cbn [m_scope_level]. rewrite unsigned_wrap_small by lia. lia.
  - cbn [bit_width]. rewrite Hw. rewrite Hw in Hloop. rewrite Hloop.
    destruct ok; [|eauto].
    apply find_min_loop_frame in Hloop.
    destruct Hloop as (_ & _ & _ & Ll). cbn [m_scope_level] in Ll.
    specialize (Ll (unsigned_wrap_range _)).
    destruct (model_cache u2) as [|top2 below2] eqn:Hc2; [contradiction|].
    erewrite pop_effect; [eauto| |exact Hc2].
    unfold scope_level. rewrite Ll, unsigned_wrap_small by lia. lia.
Qed.

Lemma find_max_returns (u : univariate_bitblast_solver) :
  consistent u ->
  0 <= m_scope_level u -> m_scope_level u + 2 < 2 ^ 32 ->
  model u <> None ->
  exists ok v u', find_max u = Some (ok, v, u').
Proof.
  intros Hu Hl0 Hl1 Hmodel. unfold find_max.
  destruct (model u) as [[val u0]|] eqn:Hm; [clear Hmodel|contradiction].
  destruct (model_models dp_sound u u0 val (consistent_cache u Hu)
              (proj2 Hu) Hm) as (Hval & Hw & HA).
  apply model_frame in Hm. destruct Hm as (_ & _ & Ml & _ & Mhd).
  destruct (model_cache u0) as [|top below] eqn:Hc; [discriminate Mhd|].
  erewrite push_effect by exact Hc.
  match goal with
  | |- context [find_max_loop _ val ?u1] =>
      destruct (find_max_loop_returns (bit_width u) (in_force u)
                  (bit_width u) val u1)
        as (ok & v & u2 & Hloop & Hne)
  end.
  - rewrite <- Hw, <- HA. rewrite <- Hw, <- HA in Hval.
    match goal with
    | |- max_invariant _ _ _ _ ?u1 => exact (max_invariant_entry u1 val Hval)
    end.
  - discriminate.
  - cbn [m_scope_level]. apply unsigned_wrap_range.
  - cbn [m_scope_level]. rewrite unsigned_wrap_small by lia. lia.
  - cbn [bit_width]. rewrite Hw. rewrite Hw in Hloop. rewrite Hloop.
    destruct ok; [|eauto].
    apply find_max_loop_frame in Hloop.
    destruct Hloop as (_ & _ & _ & Ll). cbn [m_scope_level] in Ll.
    specialize (Ll (unsigned_wrap_range _)).
    destruct (model_cache u2) as [|top2 below2] eqn:Hc2; [contradiction|].
    erewrite pop_effect; [eauto| |exact Hc2].
    unfold scope_level. rewrite Ll, unsigned_wrap_small by lia. lia.
Qed.

End Returns.

(* ================================================================== *)
(** * The exhaustive decision procedure is sound *)

Lemma search_some (W : nat) (A : list assertion) (n : nat) :
  forall v0 v, search W A n v0 = Some v ->
               v0 <= v < v0 + Z.of_nat n /\ holds_all W v A = true.
Proof.
  induction n as [|n IH]; intros v0 v H; [discriminate|].
  cbn [search] in H.
  destruct (holds_all W v0 A) eqn:Hv0.
  - injection H as <-. split; [lia|exact Hv0].
  - apply IH in H. destruct H as [Hr Hv]. split; [lia|exact Hv].
Qed.

Lemma search_none (W : nat) (A : list assertion) (n : nat) :
  forall v0, search W A n v0 = None ->
             forall v, v0 <= v < v0 + Z.of_nat n -> holds_all W v A = false.
Proof.
  induction n as [|n IH]; intros v0 H v Hv; [lia|].
  cbn [search] in H.
  destruct (holds_all W v0 A) eqn:Hv0; [discriminate|].
  destruct (Z.eq_dec v v0) as [->|Hne]; [exact Hv0|].
  apply (IH (v0 + 1) H). lia.
Qed.

Lemma modulus_of_nat (W : nat) : Z.of_nat (2 ^ W) = modulus W.
Proof. unfold modulus. now rewrite Nat2Z.inj_pow. Qed.

Lemma filter_all_labels (A : list assertion) :
  filter (labelled_by (map get_num (map snd A))) A = A.
Proof.
  apply forallb_filter_id. apply forallb_forall. intros a Ha.
  unfold labelled_by. apply existsb_exists.
  exists (get_num (snd a)). split; [|apply N.eqb_refl].
  apply in_map, in_map, Ha.
Qed.

Lemma exhaustive_sound : sound exhaustive.
Proof.
  constructor; unfold check_sat_core, exhaustive; intros W A.
  - intros v H.
    destruct (search W A (2 ^ W) 0) as [v'|] eqn:Hs; [|discriminate].
    injection H as ->. apply search_some in Hs.
    rewrite modulus_of_nat in Hs. split; [lia|apply Hs].
  - intros core H.
    destruct (search W A (2 ^ W) 0) as [v'|] eqn:Hs; [discriminate|].
    injection H as <-. split; [apply incl_refl|].
    intros v Hv. rewrite filter_all_labels.
    apply (search_none _ _ _ _ Hs). rewrite modulus_of_nat. lia.
Qed.

Lemma bounded_sound : sound bounded.
Proof.
  constructor; unfold check_sat_core, bounded; intros W A.
  - intros v H. destruct (length A <=? 4)%nat; [|discriminate].
    now apply (sat_sound _ exhaustive_sound).
  - intros core H. destruct (length A <=? 4)%nat; [|discriminate].
    now apply (unsat_sound _ exhaustive_sound).
Qed.

(* ================================================================== *)
(** * The cache stays consistent while scopes are closed one at a time *)

Section Consistency.
Context {dp : decision_procedure} (dp_sound : sound dp).

Lemma construct_consistent (W : nat) : consistent (construct W).
Proof.
  split.
  - cbn. split; [lia|exact I].
  - intros r H. discriminate H.
Qed.

Lemma add_consistent (e : bool_expr) (sign : bool) (dep : N)
  (u u' : univariate_bitblast_solver) :
  consistent u -> add e sign dep u = Some u' -> consistent u'.
Proof.
  intros [Hf _] H. apply add_inv in H.
  destruct H as (top & below & Hc & ->). split.
  - cbn [bit_width model_cache s]. rewrite Hc in Hf.
    unfold solver_assert_expr; cbn [scopes].
    destruct (scopes (s u)) as [|f fs]; [contradiction|].
    split; [lia|apply Hf].
  - intros r H. discriminate H.
Qed.

Lemma push_consistent (u u' : univariate_bitblast_solver) :
  consistent u -> push u = Some u' -> consistent u'.
Proof.
  intros [Hf _] H. apply push_inv in H.
  destruct H as (top & below & Hc & ->). split.
  - cbn [bit_width model_cache s solver_push scopes]. rewrite Hc in Hf.
    destruct (scopes (s u)) as [|f fs]; [contradiction|].
    split; [exact (proj1 Hf)|exact Hf].
  - intros r H. discriminate H.
Qed.

Lemma pop_consistent (u u' : univariate_bitblast_solver) :
  consistent u -> pop 1 u = Some u' -> consistent u'.
Proof.
  intros [Hf _] H. apply pop_inv in H.
  destruct H as (top & below & _ & Hc & ->). split.
  - cbn [bit_width model_cache s solver_pop scopes]. rewrite Hc in Hf.
    change (Z.to_nat 1) with 1%nat.
    destruct (scopes (s u)) as [|f fs]; [contradiction|].
    apply Hf.
  - intros r H. discriminate H.
Qed.

Lemma check_consistent (u : univariate_bitblast_solver) :
  consistent u -> consistent (snd (check u)).
Proof.
  intros [Hf _]. split.
  - exact Hf.
  - intros r H. cbn in H. now injection H as <-.
Qed.

Lemma model_consistent (u u' : univariate_bitblast_solver) (val : Z) :
  consistent u -> model u = Some (val, u') -> consistent u'.
Proof.
  intros Hu H. pose proof Hu as [Hf Hr]. apply model_inv in H.
  destruct H as (top & below & Hc & [(Hpos & -> & ->)|(Hneg & Hlast & ->)]);
    [exact Hu|].
  split.
  - cbn [bit_width model_cache s solver_get_model snd scopes].
    rewrite Hc in Hf.
    destruct (scopes (s u)) as [|f fs] eqn:Hs; [contradiction|].
    split; [|apply Hf].
    intros _. specialize (Hr _ Hlast).
    symmetry in Hr. apply (sat_sound dp dp_sound) in Hr.
    unfold in_force, assertions in Hr. now rewrite Hs in Hr.
  - exact Hr.
Qed.

Lemma find_min_loop_consistent (k : nat) :
  forall val u ok v u',
    consistent u -> find_min_loop k val u = Some (ok, v, u') ->
    consistent u'.
Proof.
  induction k as [|k IH]; intros val u ok v u' Hu H.
  - now injection H as _ _ <-.
  - cbn [find_min_loop] in H.
    destruct (negb (Z.testbit val (Z.of_nat k))).
    + bind_inv H. eapply IH; [|exact H]. eapply add_consistent; eauto.
    + bind_inv H. bind_inv H.
      assert (Hu1 : consistent u1).
      { eapply add_consistent; [|exact E0]. eapply push_consistent; eauto. }
      pose proof (check_consistent u1 Hu1) as Hu2.
      destruct (check u1) as [result u2]. cbn [snd] in Hu2.
      destruct result.
      * bind_inv H. bind_inv H. eapply IH; [|exact H].
        eapply add_consistent; [|exact E2]. eapply pop_consistent; eauto.
      * bind_inv H. injection H as _ _ <-. eapply pop_consistent; eauto.
      * destruct (model u2) as [[m u3]|] eqn:Hm1; [|discriminate].
        destruct (m <? val); [|discriminate].
        destruct (model u3) as [[val' u4]|] eqn:Hm2; [|discriminate].
        bind_inv H. bind_inv H. eapply IH; [|exact H].
        eapply add_consistent; [|exact E2].
        eapply pop_consistent; [|exact E1].
        eapply model_consistent; [|exact Hm2].
        eapply model_consistent; eauto.
Qed.

Lemma find_max_loop_consistent (k : nat) :
  forall val u ok v u',
    consistent u -> find_max_loop k val u = Some (ok, v, u') ->
    consistent u'.
Proof.
  induction k as [|k IH]; intros val u ok v u' Hu H.
  - now injection H as _ _ <-.
  - cbn [find_max_loop] in H.
    destruct (Z.testbit val (Z.of_nat k)).
    + bind_inv H. eapply IH; [|exact H]. eapply add_consistent; eauto.
    + bind_inv H. bind_inv H.
      assert (Hu1 : consistent u1).
      { eapply add_consistent; [|exact E0]. eapply push_consistent; eauto. }
      pose proof (check_consistent u1 Hu1) as Hu2.
      destruct (check u1) as [result u2]. cbn [snd] in Hu2.
      destruct result.
      * bind_inv H. bind_inv H. eapply IH; [|exact H].
        eapply add_consistent; [|exact E2]. eapply pop_consistent; eauto.
      * bind_inv H. injection H as _ _ <-. eapply pop_consistent; eauto.
      * destruct (model u2) as [[m u3]|] eqn:Hm1; [|discriminate].
        destruct (val <? m); [|discriminate].
        destruct (model u3) as [[val' u4]|] eqn:Hm2; [|discriminate].
        bind_inv H. bind_inv H. eapply IH; [|exact H].
        eapply add_consistent; [|exact E2].
        eapply pop_consistent; [|exact E1].
        eapply model_consistent; [|exact Hm2].
        eapply model_consistent; eauto.
Qed.

Lemma find_min_consistent (u u' : univariate_bitblast_solver) (ok : bool)
  (v : Z) :
  consistent u -> find_min u = Some (ok, v, u') -> consistent u'.
Proof.
  intros Hu H. unfold find_min in H.
  destruct (model u) as [[val u0]|] eqn:Hmodel; [|discriminate].
  bind_inv H.
  destruct (find_min_loop (bit_width u1) val u1) as [[[ok' val'] u2]|]
    eqn:Hloop; [|discriminate].
  assert (Hu2 : consistent u2).
  { eapply find_min_loop_consistent; [|exact Hloop].
    eapply push_consistent; [|exact E].
    eapply model_consistent; eauto. }
  destruct ok'.
  - bind_inv H. injection H as _ _ <-. eapply pop_consistent; eauto.
  - now injection H as _ _ <-.
Qed.

Lemma find_max_consistent (u u' : univariate_bitblast_solver) (ok : bool)
  (v : Z) :
  consistent u -> find_max u = Some (ok, v, u') -> consistent u'.
Proof.
  intros Hu H. unfold find_max in H.
  destruct (model u) as [[val u0]|] eqn:Hmodel; [|discriminate].
  bind_inv H.
  destruct (find_max_loop (bit_width u1) val u1) as [[[ok' val'] u2]|]
    eqn:Hloop; [|discriminate].
  assert (Hu2 : consistent u2).
  { eapply find_max_loop_consistent; [|exact Hloop].
    eapply push_consistent; [|exact E].
    eapply model_consistent; eauto. }
  destruct ok'.
  - bind_inv H. injection H as _ _ <-. eapply pop_consistent; eauto.
  - now injection H as _ _ <-.
Qed.

Lemma step_consistent (o : operation) (u u' : univariate_bitblast_solver) :
  match o with op_pop n => n = 1 | _ => True end ->
  consistent u -> step o u = Some u' -> consistent u'.
Proof.
  intros Ho Hu H.
  destruct o; cbn [step] in H;
    try (eapply add_consistent; [exact Hu|exact H]).
  - now apply (push_consistent u).
  - subst n. now apply (pop_consistent u).
  - injection H as <-. now apply check_consistent.
  - destruct (model u) as [[val u0]|] eqn:Hm; [|discriminate].
    injection H as <-. now apply (model_consistent u _ val).
  - destruct (find_min u) as [[[ok v] u0]|] eqn:Hm; [|discriminate].
    injection H as <-. now apply (find_min_consistent u _ ok v).
  - destruct (find_max u) as [[[ok v] u0]|] eqn:Hm; [|discriminate].
    injection H as <-. now apply (find_max_consistent u _ ok v).
Qed.

(** After construction and any run of requests that closes scopes one at
    a time, the cached value of the current scope, when valid, satisfies
    the assertions in force. *)
Lemma run_consistent (ops : list operation) :
  forall u u',
    pops_one_scope ops -> consistent u -> run ops u = Some u' ->
    consistent u'.
Proof.
  induction ops as [|o ops IH]; intros u u' Hops Hu H.
  - now injection H as <-.
  - inversion Hops as [|o' ops' Ho Hrest]; subst.
    cbn [run] in H. bind_inv H.
    eapply IH; [exact Hrest| |exact H].
    eapply step_consistent; eauto.
Qed.

(** So the states that [find_min] and [find_max] are proved right on are
    those that such a run reaches. *)
Lemma reachable_consistent (W : nat) (ops : list operation)
  (u : univariate_bitblast_solver) :
  pops_one_scope ops -> run ops (construct W) = Some u ->
  cache_consistent u /\ result_current u.
Proof.
  intros Hops Hrun.
  assert (Hu : consistent u)
    by (eapply run_consistent; eauto using construct_consistent).
  split; [now apply consistent_cache|apply Hu].
Qed.

End Consistency.

(** Instantiates the existential at hand with the state that the closed
    computation [t] ends in. *)
Ltac exists_state t :=
  let r := eval vm_compute in t in
  match r with
  | Some (_, _, ?u) => exists u
  | Some (_, ?u) => exists u
  | Some ?u => exists u
  | (_, ?u) => exists u
  end.

(* ================================================================== *)
(** * The polynomial encoder against its specification *)

(** Every power of two takes the shift branch. *)
Lemma mk_poly_term_pow2 (k : Z) (xpow : bv_expr) :
  0 <= k -> mk_poly_term (2 ^ k) xpow = mk_bv_shl xpow (mk_numeral k).
Proof.
  intros Hk. unfold mk_poly_term. now rewrite is_power_of_two_pow2.
Qed.

(** On coefficients below [2^(2^W)] the shift-based term and the
    multiply-based term have the same value. *)
Lemma mk_poly_term_refines_mul (W : nat) (coeff : Z) (xpow : bv_expr) (v : Z) :
  coeff < 2 ^ modulus W ->
  eval W v (mk_poly_term coeff xpow) = eval W v (mk_poly_term_mul coeff xpow).
Proof.
  intros Hc. rewrite mk_poly_term_value by assumption.
  unfold mk_poly_term_mul, mk_numeral. cbn [eval].
  now rewrite wrap_mul_l.
Qed.

(** C1. The encoder is meant to evaluate to [(c0 + c1*v + ...) mod 2^W] for
    every coefficient list.  It does not: at bit width 1 the list [[0; 4]]
    denotes [4*x], which is 0 modulo 2 at [x = 1], but the encoded term
    [0 + (x << 2)] carries its shift amount in a 1-bit numeral, shifts by 0
    and evaluates to 1.  The empty list does encode the literal 0. *)
Theorem mk_poly_shift_amount_overflow :
  mk_poly [0; 4] = mk_bv_add (mk_numeral 0) (mk_bv_shl bv_x (mk_numeral 2)) /\
  eval 1 1 (mk_poly [0; 4]) = 1 /\
  wrap 1 (poly_value [0; 4] 1) = 0 /\
  mk_poly [] = mk_numeral 0.
Proof. repeat split. Qed.

(** C8. The shift-based and the multiply-based encoding of a power-of-two
    coefficient are meant to agree modulo [2^W].  They do not when the
    exponent does not fit the width: at bit width 1, for the coefficient
    [4 = 2^2] and [x = 1], the term that [mk_poly_term] builds is worth 1
    and the multiply-based term is worth 0. *)
Theorem mk_poly_term_shift_differs_from_multiply :
  is_power_of_two 4 = Some 2 /\
  mk_poly_term 4 bv_x = mk_bv_shl bv_x (mk_numeral 2) /\
  eval 1 1 (mk_poly_term 4 bv_x) = 1 /\
  eval 1 1 (mk_poly_term_mul 4 bv_x) = 0.
Proof. repeat split. Qed.

(* ================================================================== *)
(** * The assertion manager against its specification *)

(** C3. [pop(n)] is meant to discard [n] cache frames.  The scope level
    goes down by [n] and [pop(n)] reaches the decision procedure, but
    [pop_cache] runs once: after [check; model; push; add; push; pop(2)] at
    width 4 the instance is back at scope level 0 with two cache frames, and
    the frame on top is the invalidated one of level 1, not the frame of
    level 0 that holds the model 0. *)
Theorem pop_discards_one_cache_frame :
  exists u1 u2,
    run (dp := exhaustive)
      [op_check; op_model; op_push; op_add_uge_const 5 false 1; op_push]
      (construct 4) = Some u1 /\
    scope_level u1 = 2 /\ model_cache u1 = [-1; -1; 0] /\
    pop 2 u1 = Some u2 /\
    scope_level u2 = 0 /\
    requests (s u2) = req_pop 2 :: requests (s u1) /\
    model_cache u2 = [-1; 0].
Proof.
  exists_state (run (dp := exhaustive)
      [op_check; op_model; op_push; op_add_uge_const 5 false 1; op_push]
      (construct 4)).
  eexists. repeat split.
Qed.

(** C4. A valid cached value is meant to satisfy the assertions in force
    after every run of requests.  Because [pop(0)] also drops a cache frame,
    it does not: after [check; model; push; add_uge_const 5; pop(0)] at
    width 4 the instance is at scope level 1, where [5 <= x] is in force,
    and the frame on top of the cache is the one of level 0, holding 0;
    [model()] after the next [check()], which is sat, returns that 0. *)
Theorem stale_cache_after_pop_zero :
  exists u u1,
    run (dp := exhaustive)
      [op_check; op_model; op_push; op_add_uge_const 5 false 1; op_pop 0]
      (construct 4) = Some u /\
    scope_level u = 1 /\
    model_cache u = [0] /\
    in_force u = [(mk_ule (mk_numeral 5) bv_x, symbol_num 1)] /\
    holds_all 4 0 (in_force u) = false /\
    ~ cache_consistent u /\
    check (dp := exhaustive) u = (l_true, u1) /\
    model u1 = Some (0, u1).
Proof.
  exists_state (run (dp := exhaustive)
      [op_check; op_model; op_push; op_add_uge_const 5 false 1; op_pop 0]
      (construct 4)).
  eexists. repeat split.
  intros H. specialize (H 0 [] eq_refl ltac:(lia)).
  destruct H as [_ H]. discriminate H.
Qed.

(** C9. [add_umul_ovfl], [add_smul_ovfl] and [add_smul_udfl] are meant to
    assert the overflow predicate of [lhs * rhs], as it is when the caller's
    sign flag is true and negated when it is false.  The sign is handled so,
    but the predicate is asserted of the terms that [mk_poly] builds, and
    those are not always worth the polynomials: at bit width 2, [lhs =
    [0; 16]] is the polynomial [16*x], worth 0 modulo 4 everywhere, so that
    [lhs * rhs] with [rhs = [2]] never overflows; yet [mk_poly] encodes it
    as [0 + (x << 0)], and the formula asserted with [sign = true] holds at
    [x = 0] and [x = 1] only, while with [sign = false] the instance accepts
    [x = 2] and [x = 3] as overflowing. *)
Theorem mul_overflow_asserted_of_wrong_term :
  exists u1 u0,
    add_umul_ovfl [0; 16] [2] true 1 (construct 2) = Some u1 /\
    in_force u1 =
      [(mk_bvumul_no_ovfl
          (mk_bv_add (mk_numeral 0) (mk_bv_shl bv_x (mk_numeral 4)))
          (mk_numeral 2), symbol_num 1)] /\
    map (fun v => holds_all 2 v (in_force u1)) [0; 1; 2; 3]
    = [true; true; false; false] /\
    map (fun v => no_unsigned_overflow 2 (poly_mod 2 [0; 16] v)
                    (poly_mod 2 [2] v)) [0; 1; 2; 3]
    = [true; true; true; true] /\
    add_umul_ovfl [0; 16] [2] false 1 (construct 2) = Some u0 /\
    map (fun v => holds_all 2 v (in_force u0)) [0; 1; 2; 3]
    = [false; false; true; true] /\
    map (fun v => negb (no_unsigned_overflow 2 (poly_mod 2 [0; 16] v)
                          (poly_mod 2 [2] v))) [0; 1; 2; 3]
    = [false; false; false; false].
Proof.
  exists_state (add_umul_ovfl [0; 16] [2] true 1 (construct 2)).
  exists_state (add_umul_ovfl [0; 16] [2] false 1 (construct 2)).
  repeat split.
Qed.

(** C10. [push()] copies the cached value of the parent scope, not just
    its validity, into the new frame: when that value is valid, [model()]
    right after [push()] returns it, the value that [model()] returned
    before the [push()], and leaves the instance as it is, so no request
    reaches the decision procedure. *)
Theorem push_copies_cached_model (u : univariate_bitblast_solver) (top : Z)
  (below : list Z) :
  model_cache u = top :: below ->
  exists u1,
    push u = Some u1 /\
    model_cache u1 = top :: top :: below /\
    requests (s u1) = req_push :: requests (s u) /\
    (0 <= top -> model u = Some (top, u) /\ model u1 = Some (top, u1)).
Proof.
  intros Hc. unfold push, push_cache.
  cbn [model_cache set_scope_level]. rewrite Hc.
  eexists. split; [reflexivity|].
  cbn [model_cache set_solver set_model_cache s solver_push requests].
  repeat split.
  - now apply (model_cached _ top below).
  - now apply (model_cached _ top (top :: below)).
Qed.

Lemma push_copies_cached_model_witness :
  exists u u1,
    run (dp := exhaustive) [op_add_uge_const 5 false 1; op_check; op_model]
      (construct 4) = Some u /\
    model_cache u = [5] /\
    push u = Some u1 /\
    model_cache u1 = [5; 5] /\
    requests (s u1) = req_push :: requests (s u) /\
    model u = Some (5, u) /\ model u1 = Some (5, u1).
Proof.
  exists_state (run (dp := exhaustive)
      [op_add_uge_const 5 false 1; op_check; op_model] (construct 4)).
  lazymatch goal with
  | |- exists _, _ = Some ?u /\ _ =>
      destruct (push_copies_cached_model u 5 [] eq_refl)
        as (u1 & Hp & Hc & Hr & Hm);
      exists u1
  end.
  split; [reflexivity|]. split; [reflexivity|].
  split; [exact Hp|]. split; [exact Hc|]. split; [exact Hr|].
  apply Hm. lia.
Defined.

(* ================================================================== *)
(** * The extremal search against its specification *)

(** X21. For every bit width and every decision procedure that keeps its
    contract, on an instance whose cached value and kept result are those
    of the assertions in force (as they are after [check()] returned sat in
    a run that closes scopes one at a time), a successful [find_min]
    returns the least value of the unknown in [0, 2^W) that satisfies every
    assertion in force at entry, and a successful [find_max] the greatest.
    At bit width 4, after asserting [x <= 10] with [sign = false],
    [check()] is sat, [find_max] returns 10 and [find_min] returns 0. *)
Theorem find_min_find_max_extremal :
  (forall (dp : decision_procedure) (u u' : univariate_bitblast_solver)
          (v : Z),
      sound dp -> cache_consistent u -> result_current u ->
      (find_min u = Some (true, v, u') ->
       models (bit_width u) (in_force u) v /\
       forall x, models (bit_width u) (in_force u) x -> v <= x) /\
      (find_max u = Some (true, v, u') ->
       models (bit_width u) (in_force u) v /\
       forall x, models (bit_width u) (in_force u) x -> x <= v)) /\
  (exists u0 u1 u2 u3,
      add_ule_const 10 false 1 (construct 4) = Some u0 /\
      check (dp := exhaustive) u0 = (l_true, u1) /\
      find_max (dp := exhaustive) u1 = Some (true, 10, u2) /\
      find_min (dp := exhaustive) u2 = Some (true, 0, u3)).
Proof.
  split.
  - intros dp u u' v Hs Hc Hr. split; intros H.
    + now apply (find_min_least Hs u u').
    + now apply (find_max_greatest Hs u u').
  - exists_state (add_ule_const 10 false 1 (construct 4)).
    lazymatch goal with
    | |- exists _ _ _, _ = Some ?u0 /\ _ =>
        exists_state (check (dp := exhaustive) u0)
    end.
    lazymatch goal with
    | |- exists _ _, _ /\ _ = (_, ?u1) /\ _ =>
        exists_state (find_max (dp := exhaustive) u1)
    end.
    lazymatch goal with
    | |- exists _, _ /\ _ /\ _ = Some (_, _, ?u2) /\ _ =>
        exists_state (find_min (dp := exhaustive) u2)
    end.
    split; [reflexivity|]. split; [reflexivity|].
    split; vm_compute; reflexivity.
Qed.

Lemma find_min_find_max_extremal_witness :
  exists u u',
    run (dp := exhaustive) [op_add_ule_const 10 false 1; op_check]
      (construct 4) = Some u /\
    find_max (dp := exhaustive) u = Some (true, 10, u') /\
    models 4 (in_force u) 10 /\
    forall x, models 4 (in_force u) x -> x <= 10.
Proof.
  exists_state (run (dp := exhaustive) [op_add_ule_const 10 false 1; op_check]
                  (construct 4)).
  lazymatch goal with
  | |- exists _, _ = Some ?u /\ _ =>
      exists_state (find_max (dp := exhaustive) u)
  end.
  lazymatch goal with
  | |- _ = Some ?u /\ _ = Some (_, _, ?u') /\ _ =>
      assert (Hc : cache_consistent u)
        by (intros top below [= <- <-] Hpos; exfalso; lia);
      assert (Hr : @result_current exhaustive u)
        by (intros r [= <-]; reflexivity);
      assert (E : find_max (dp := exhaustive) u = Some (true, 10, u'))
        by (vm_compute; reflexivity);
      pose proof (proj2 (proj1 find_min_find_max_extremal exhaustive u u' 10
                           exhaustive_sound Hc Hr) E) as Hmax
  end.
  split; [reflexivity|]. split; [exact E|]. exact Hmax.
Defined.

(** C2. A successful [find_min] is meant to return the least value that
    satisfies every assertion in force at entry, for every satisfiable
    constraint set.  It starts from [model()], though, and [model()] trusts
    the cache, which [pop(0)] leaves one frame short: at width 4, after
    [check; model; push; add_uge_const 5; pop(0)], the instance is at scope
    level 1 with [5 <= x] in force and the cached value 0 of level 0 on
    top.  The next [check()] is sat; [find_min] then reads 0 from the
    cache, finds every bit clear, asks no further check and returns [true]
    with 0, which violates [5 <= x]; the least satisfying value is 5. *)
Theorem find_min_trusts_stale_cache :
  exists u0 u u',
    run (dp := exhaustive)
      [op_check; op_model; op_push; op_add_uge_const 5 false 1; op_pop 0]
      (construct 4) = Some u0 /\
    check (dp := exhaustive) u0 = (l_true, u) /\
    in_force u = [(mk_ule (mk_numeral 5) bv_x, symbol_num 1)] /\
    find_min (dp := exhaustive) u = Some (true, 0, u') /\
    ~ models 4 (in_force u) 0 /\
    models 4 (in_force u) 5 /\
    (forall x, models 4 (in_force u) x -> 5 <= x).
Proof.
  exists_state (run (dp := exhaustive)
      [op_check; op_model; op_push; op_add_uge_const 5 false 1; op_pop 0]
      (construct 4)).
  lazymatch goal with
  | |- exists _ _, _ = Some ?u0 /\ _ =>
      exists_state (check (dp := exhaustive) u0)
  end.
  lazymatch goal with
  | |- exists _, _ /\ _ = (_, ?u) /\ _ =>
      exists_state (find_min (dp := exhaustive) u)
  end.
  split; [reflexivity|]. split; [reflexivity|]. split; [reflexivity|].
  split; [vm_compute; reflexivity|].
  cbn [in_force assertions s scopes concat app].
  split; [|split].
  - intros [_ H]. discriminate H.
  - split; [unfold modulus; simpl; lia|reflexivity].
  - intros x [_ H]. unfold holds_all in H. cbn [forallb fst holds eval] in H.
    rewrite andb_true_r in H. apply Z.leb_le in H.
    change (wrap 4 5) with 5 in H. exact H.
Qed.

(** On success [find_min] and [find_max] return at the scope level they
    were entered at; on failure they return one level above it. *)
Lemma find_min_scope_level {dp : decision_procedure}
  (u u' : univariate_bitblast_solver) (ok : bool) (v : Z) :
  0 <= m_scope_level u < 2 ^ 32 ->
  find_min u = Some (ok, v, u') ->
  scope_level u' =
    if ok then scope_level u else unsigned_wrap (scope_level u + 1).
Proof.
  intros Hl H. apply find_min_frame in H. destruct H as [_ H].
  destruct ok; [now apply H|apply H].
Qed.

Lemma find_max_scope_level {dp : decision_procedure}
  (u u' : univariate_bitblast_solver) (ok : bool) (v : Z) :
  0 <= m_scope_level u < 2 ^ 32 ->
  find_max u = Some (ok, v, u') ->
  scope_level u' =
    if ok then scope_level u else unsigned_wrap (scope_level u + 1).
Proof.
  intros Hl H. apply find_max_frame in H. destruct H as [_ H].
  destruct ok; [now apply H|apply H].
Qed.

(** C5. [find_min] and [find_max] are meant to return at the scope level
    they were entered at on every path.  On the path taken when the inner
    check is inconclusive they do not: [return false] follows the [pop(1)]
    of the nested scope only, and the scope opened at entry stays open.  At
    width 4 with [1 <= x] asserted, on a decision procedure that gives up
    beyond four assertions, both are entered at scope level 0 and return
    [false] at scope level 1. *)
Theorem find_min_find_max_abort_leave_scope_open :
  exists u vmin umin vmax umax,
    run (dp := bounded) [op_add_uge_const 1 false 1; op_check] (construct 4)
      = Some u /\
    scope_level u = 0 /\
    find_min (dp := bounded) u = Some (false, vmin, umin) /\
    scope_level umin = 1 /\
    find_max (dp := bounded) u = Some (false, vmax, umax) /\
    scope_level umax = 1.
Proof.
  exists_state (run (dp := bounded) [op_add_uge_const 1 false 1; op_check]
                  (construct 4)).
  do 4 eexists.
  split; [reflexivity|]. split; [reflexivity|].
  split; [vm_compute; reflexivity|]. split; [reflexivity|].
  split; [vm_compute; reflexivity|]. reflexivity.
Qed.

(** C6, as specified: after a successful [find_max] the forced bits would
    still be asserted and the unknown pinned to the maximum.  Not so: at
    width 4 with [x <= 10] asserted, [find_max] returns 10 and leaves
    exactly [x <= 10] in force: no forced bit is left, and the unknown is
    not pinned to 10. *)
Lemma find_max_does_not_pin :
  exists u u',
    run (dp := exhaustive) [op_add_ule_const 10 false 1; op_check]
      (construct 4) = Some u /\
    find_max (dp := exhaustive) u = Some (true, 10, u') /\
    in_force u' = [(mk_ule bv_x (mk_numeral 10), symbol_num 1)] /\
    models 4 (in_force u') 0 /\
    ~ pinned u' 10.
Proof.
  exists_state (run (dp := exhaustive) [op_add_ule_const 10 false 1; op_check]
                  (construct 4)).
  lazymatch goal with
  | |- exists _, _ = Some ?u /\ _ =>
      exists_state (find_max (dp := exhaustive) u)
  end.
  assert (H0 : models 4 [(mk_ule bv_x (mk_numeral 10), symbol_num 1)] 0).
  { split; [unfold modulus; simpl; lia|reflexivity]. }
  split; [reflexivity|]. split; [vm_compute; reflexivity|].
  split; [reflexivity|]. split; [exact H0|].
  intros Hpin. specialize (Hpin 0 H0). discriminate Hpin.
Qed.

(** C6, amended.  After a successful [find_min] or [find_max] the
    single-bit assertions forced during the search are gone with the scope
    that the search opened: the assertion stack of the decision procedure,
    and with it the set of assertions in force, is the one at entry. *)
Theorem extremal_search_restores_assertions (dp : decision_procedure)
  (u u' : univariate_bitblast_solver) (v : Z) :
  (find_min u = Some (true, v, u') ->
   scopes (s u') = scopes (s u) /\ in_force u' = in_force u) /\
  (find_max u = Some (true, v, u') ->
   scopes (s u') = scopes (s u) /\ in_force u' = in_force u).
Proof.
  split; intros H;
    [apply find_min_frame in H|apply find_max_frame in H];
    destruct H as (_ & Hs & _);
    (split; [exact Hs|unfold in_force, assertions; now rewrite Hs]).
Qed.

Lemma extremal_search_restores_assertions_witness :
  exists u u',
    run (dp := exhaustive) [op_add_uge_const 5 false 1; op_check]
      (construct 4) = Some u /\
    find_min (dp := exhaustive) u = Some (true, 5, u') /\
    scopes (s u') = scopes (s u) /\ in_force u' = in_force u.
Proof.
  exists_state (run (dp := exhaustive) [op_add_uge_const 5 false 1; op_check]
                  (construct 4)).
  lazymatch goal with
  | |- exists _, _ = Some ?u /\ _ =>
      exists_state (find_min (dp := exhaustive) u)
  end.
  lazymatch goal with
  | |- _ = Some ?u /\ _ = Some (_, _, ?u') /\ _ =>
      assert (E : find_min (dp := exhaustive) u = Some (true, 5, u'))
        by (vm_compute; reflexivity);
      pose proof (proj1 (extremal_search_restores_assertions exhaustive u u' 5)
                    E) as Hsame
  end.
  split; [reflexivity|]. split; [exact E|]. exact Hsame.
Defined.

(* ================================================================== *)
(** * The unsat core against its specification *)

Lemma filter_no_labels (A : list assertion) : filter (labelled_by []) A = [].
Proof. induction A as [|a A IH]; [reflexivity|exact IH]. Qed.

(** C7. After a [check()] that reported unsat, on a decision procedure
    that keeps its contract, [unsat_core()] returns, and what it returns is
    a non-empty list of dependencies; each is the dependency that the caller
    gave with an assertion still in force, and the assertions in force so
    labelled have no common value of the unknown.  On any decision
    procedure whatever, a core that comes back empty ends the call in the
    failed assertion: an empty list is never returned. *)
Theorem unsat_core_names_unsat_assertions :
  (forall (dp : decision_procedure) (u u1 : univariate_bitblast_solver),
      sound dp -> check u = (l_false, u1) ->
      exists deps u2,
        unsat_core u1 = Some (deps, u2) /\
        deps <> [] /\
        (forall d, In d deps -> exists e, In (e, symbol_num d) (in_force u1)) /\
        (forall v, 0 <= v < modulus (bit_width u1) ->
           holds_all (bit_width u1) v
             (filter (labelled_by deps) (in_force u1)) = false)) /\
  (forall (u u' : univariate_bitblast_solver) (deps : list N),
      unsat_core u = Some (deps, u') -> deps <> []) /\
  (forall u : univariate_bitblast_solver,
      fst (solver_get_unsat_core (s u)) = [] -> unsat_core u = None).
Proof.
  split; [|split].
  - intros dp u u1 Hs Hcheck.
    unfold check, solver_check_sat in Hcheck.
    injection Hcheck as Hres <-.
    destruct (check_sat_core (bit_width u) (assertions (s u)))
      as [m|core|] eqn:Hdp; try discriminate Hres.
    destruct (unsat_sound dp Hs _ _ _ Hdp) as [Hincl Hno].
    assert (Hne : map get_num core <> []).
    { intros E. rewrite E, filter_no_labels in Hno.
      specialize (Hno 0 ltac:(pose proof (modulus_pos (bit_width u)); lia)).
      discriminate Hno. }
    unfold unsat_core, solver_get_unsat_core.
    cbn [s set_solver last_result bit_width].
    destruct (map get_num core) as [|d deps] eqn:Hdeps; [contradiction|].
    eexists. eexists. split; [reflexivity|].
    split; [discriminate|]. split.
    + intros d' Hd'. rewrite <- Hdeps in Hd'.
      apply in_map_iff in Hd'. destruct Hd' as (a & <- & Ha).
      apply Hincl in Ha. apply in_map_iff in Ha.
      destruct Ha as ([e a'] & Hsnd & HA). cbn [snd] in Hsnd. subst a'.
      exists e. destruct a as [idx]. exact HA.
    + exact Hno.
  - intros u u' deps H. unfold unsat_core in H.
    destruct (solver_get_unsat_core (s u)) as [core sv].
    destruct (map get_num core); [discriminate|].
    injection H as <- _. discriminate.
  - intros u H. unfold unsat_core.
    destruct (solver_get_unsat_core (s u)) as [core sv].
    cbn [fst] in H. now subst core.
Qed.

Lemma unsat_core_names_unsat_assertions_witness :
  exists u u1 u2,
    run (dp := exhaustive)
      [op_add_ule_const 200 false 1; op_add_uge_const 210 false 2]
      (construct 8) = Some u /\
    check (dp := exhaustive) u = (l_false, u1) /\
    unsat_core u1 = Some ([2; 1]%N, u2) /\
    (forall v, 0 <= v < modulus 8 ->
       holds_all 8 v (filter (labelled_by [2; 1]%N) (in_force u1)) = false).
Proof.
  exists_state (run (dp := exhaustive)
      [op_add_ule_const 200 false 1; op_add_uge_const 210 false 2]
      (construct 8)).
  lazymatch goal with
  | |- exists _ _, _ = Some ?u /\ _ =>
      exists_state (check (dp := exhaustive) u)
  end.
  lazymatch goal with
  | |- exists _, _ /\ check ?u = (_, ?u1) /\ _ =>
      assert (E : check (dp := exhaustive) u = (l_false, u1))
        by (vm_compute; reflexivity);
      destruct (proj1 unsat_core_names_unsat_assertions exhaustive u u1
                  exhaustive_sound E) as (deps & u2 & Hcore & _ & _ & Hno)
  end.
  assert (Hcore' := Hcore). vm_compute in Hcore'.
  injection Hcore' as <- <-.
  eexists. split; [reflexivity|]. split; [exact E|].
  split; [exact Hcore|exact Hno].
Defined.

(* ================================================================== *)
(** * Further properties of the encoder *)

Lemma wrap_mul_r (W : nat) (a b : Z) : wrap W (a * wrap W b) = wrap W (a * b).
Proof. unfold wrap. apply Z.mul_mod_idemp_r. pose proof (modulus_pos W). lia. Qed.

Lemma mk_poly_wrapped (W : nat) (p : univariate) (v : Z) :
  wrap W (eval W v (mk_poly p)) = eval W v (mk_poly p).
Proof.
  destruct p as [|c0 rest]; [apply wrap_wrap|].
  apply mk_poly_loop_wrapped. apply wrap_wrap.
Qed.

(** X1. On every coefficient list whose entries are all below [2^(2^W)]
    (negative ones included) the term built by [mk_poly] is worth the
    polynomial modulo [2^W] at every value of the unknown, and that value
    is a bit-vector of width [W]. *)
Theorem mk_poly_encodes_polynomial (W : nat) (p : univariate) (v : Z) :
  coefficients_fit W p ->
  eval W v (mk_poly p) = poly_mod W p v /\
  0 <= eval W v (mk_poly p) < modulus W.
Proof.
  intros Hfit. split; [now apply mk_poly_value|].
  rewrite <- mk_poly_wrapped. apply wrap_range.
Qed.

Lemma mk_poly_encodes_polynomial_witness :
  coefficients_fit 4 [3; 0; 8; -1] /\
  eval 4 5 (mk_poly [3; 0; 8; -1]) = poly_mod 4 [3; 0; 8; -1] 5.
Proof.
  assert (H : coefficients_fit 4 [3; 0; 8; -1])
    by (repeat constructor; unfold modulus; simpl; lia).
  split; [exact H|].
  exact (proj1 (mk_poly_encodes_polynomial 4 [3; 0; 8; -1] 5 H)).
Defined.

(** X2. What the shift branch of [mk_poly_term] computes, for every power
    of two: the power term times two to the exponent reduced modulo [2^W],
    since the exponent travels in a numeral of the width.  This is the
    product with the coefficient as soon as the exponent is below [2^W]. *)
Theorem mk_poly_term_shift_value (W : nat) (k : Z) (xpow : bv_expr) (v : Z) :
  0 <= k ->
  eval W v (mk_poly_term (2 ^ k) xpow)
  = wrap W (eval W v xpow * 2 ^ (k mod modulus W)) /\
  (k < modulus W ->
   eval W v (mk_poly_term (2 ^ k) xpow) = wrap W (2 ^ k * eval W v xpow)).
Proof.
  intros Hk. rewrite mk_poly_term_pow2 by assumption.
  cbn [eval mk_numeral]. change (wrap W k) with (k mod modulus W).
  pose proof (Z.mod_pos_bound k (modulus W) (modulus_pos W)) as Hm.
  rewrite Z.shiftl_mul_pow2 by lia.
  split; [reflexivity|].
  intros Hlt. rewrite Z.mod_small by lia. now rewrite Z.mul_comm.
Qed.

Lemma mk_poly_term_shift_value_witness :
  0 <= 5 /\
  eval 2 3 (mk_poly_term (2 ^ 5) bv_x) = wrap 2 (3 * 2 ^ (5 mod modulus 2)).
Proof.
  assert (H : 0 <= 5) by lia.
  split; [exact H|].
  exact (proj1 (mk_poly_term_shift_value 2 5 bv_x 3 H)).
Defined.

Lemma mk_poly_loop_zeros (n : nat) :
  forall e xpow, mk_poly_loop (repeat 0 n) e xpow = e.
Proof.
  induction n as [|n IH]; intros e xpow; [reflexivity|].
  cbn [repeat mk_poly_loop]. rewrite Z.eqb_refl.
  destruct n; [reflexivity|]. apply IH.
Qed.

Lemma mk_poly_loop_trailing_zeros (n : nat) (p : list Z) :
  forall e xpow,
    mk_poly_loop (p ++ repeat 0 n) e xpow = mk_poly_loop p e xpow.
Proof.
  induction p as [|c rest IH]; intros e xpow.
  - apply mk_poly_loop_zeros.
  - cbn [app mk_poly_loop].
    destruct rest as [|c1 rest].
    + cbn [app]. destruct n; [reflexivity|]. apply mk_poly_loop_zeros.
    + cbn [app]. apply (IH _ _).
Qed.

(** X3. Zero coefficients at the end of the list leave no trace: the term
    built for [p] followed by any number of zeros is the term built for
    [p], symbol for symbol. *)
Theorem mk_poly_trailing_zeros (p : univariate) (n : nat) :
  mk_poly (p ++ repeat 0 n) = mk_poly p.
Proof.
  destruct p as [|c0 rest].
  - destruct n; [reflexivity|]. cbn [app repeat mk_poly].
    apply mk_poly_loop_zeros.
  - cbn [app mk_poly]. apply mk_poly_loop_trailing_zeros.
Qed.

Lemma poly_value_app (p : list Z) (c v : Z) :
  poly_value (p ++ [c]) v = poly_value p v + v ^ Z.of_nat (length p) * c.
Proof.
  induction p as [|a p IH].
  - cbn [app poly_value length]. change (Z.of_nat 0) with 0.
    rewrite Z.pow_0_r. ring.
  - cbn [app poly_value length]. rewrite IH, Nat2Z.inj_succ, Z.pow_succ_r by lia.
    ring.
Qed.

Lemma mk_poly_horner_loop_value (W : nat) (v : Z) (p : list Z) :
  forall e,
    wrap W (eval W v (mk_poly_horner_loop p e))
    = wrap W (poly_value (rev p) v + v ^ Z.of_nat (length p) * eval W v e).
Proof.
  induction p as [|c rest IH]; intros e.
  - cbn [mk_poly_horner_loop rev poly_value length].
    change (Z.of_nat 0) with 0. rewrite Z.pow_0_r. f_equal. ring.
  - cbn [mk_poly_horner_loop].
    rewrite IH. cbn [rev length].
    rewrite poly_value_app, length_rev, Nat2Z.inj_succ, Z.pow_succ_r by lia.
    set (n := Z.of_nat (length rest)).
    assert (He : wrap W (eval W v (if c =? 0 then mk_bv_mul e bv_x
                                   else mk_bv_add (mk_bv_mul e bv_x)
                                          (mk_numeral c)))
                 = wrap W (eval W v e * v + c)).
    { destruct (Z.eqb_spec c 0) as [->|Hnz]; cbn [eval mk_numeral].
      - rewrite wrap_wrap. f_equal. ring.
      - now rewrite wrap_wrap, wrap_add_l, wrap_add_r. }
    rewrite <- wrap_add_r, <- wrap_mul_r, He, wrap_mul_r, wrap_add_r.
    f_equal. ring.
Qed.

Lemma mk_poly_horner_loop_wrapped (W : nat) (v : Z) (p : list Z) :
  forall e,
    wrap W (eval W v e) = eval W v e ->
    wrap W (eval W v (mk_poly_horner_loop p e))
    = eval W v (mk_poly_horner_loop p e).
Proof.
  induction p as [|c rest IH]; intros e He; [exact He|].
  cbn [mk_poly_horner_loop]. apply IH.
  destruct (c =? 0); cbn [eval]; apply wrap_wrap.
Qed.

(** X4. The encoder kept under [#if 0] (Horner's scheme) is worth the
    polynomial modulo [2^W] on every coefficient list, with no bound on the
    coefficients: it multiplies by numerals only and never shifts. *)
Theorem mk_poly_horner_encodes_polynomial (W : nat) (p : univariate) (v : Z) :
  eval W v (mk_poly_horner p) = poly_mod W p v.
Proof.
  unfold mk_poly_horner, poly_mod.
  destruct (rev p) as [|back rest] eqn:Hrev.
  - apply (f_equal (@rev Z)) in Hrev. rewrite rev_involutive in Hrev.
    now subst p.
  - apply (f_equal (@rev Z)) in Hrev. rewrite rev_involutive in Hrev.
    subst p. cbn [rev].
    rewrite <- mk_poly_horner_loop_wrapped by (cbn [eval mk_numeral]; apply wrap_wrap).
    rewrite mk_poly_horner_loop_value, poly_value_app, length_rev.
    cbn [eval mk_numeral].
    now rewrite <- wrap_add_r, wrap_mul_r, wrap_add_r.
Qed.

(* ================================================================== *)
(** * Further properties of the assertion manager *)

Lemma add_narrows (e : bool_expr) (sign : bool) (dep : N)
  (u u' : univariate_bitblast_solver) (P : Z -> bool) :
  (forall v, holds (bit_width u) v e = P v) ->
  add e sign dep u = Some u' ->
  narrows u u' P sign.
Proof.
  intros HP H. apply add_inv in H. destruct H as (top & below & _ & ->).
  split; [reflexivity|].
  intros v. unfold in_force at 1. cbn [s].
  rewrite assertions_assert_expr, models_cons. fold (in_force u).
  rewrite <- HP.
  destruct sign; cbn [holds negb]; [rewrite negb_true_iff|]; tauto.
Qed.

(** X5. [add_ule(lhs, rhs, sign, dep)], on polynomials whose coefficients
    are below [2^(2^W)], narrows the satisfying values of the unknown to
    those where [lhs <= rhs] holds between the values of the polynomials
    modulo [2^W] when [sign] is false, and to those where it fails when
    [sign] is true. *)
Theorem add_ule_narrows (lhs rhs : univariate) (sign : bool) (dep : N)
  (u u' : univariate_bitblast_solver) :
  coefficients_fit (bit_width u) lhs ->
  coefficients_fit (bit_width u) rhs ->
  add_ule lhs rhs sign dep u = Some u' ->
  narrows u u'
    (fun v => poly_mod (bit_width u) lhs v <=? poly_mod (bit_width u) rhs v)
    sign.
Proof.
  intros Hl Hr H. eapply add_narrows; [|exact H].
  intros v. cbn [holds poly_mod]. unfold poly_mod. now rewrite !mk_poly_value by assumption.
Qed.

Lemma add_ule_narrows_witness :
  exists u',
    add_ule [1; 2] [7] false 1 (construct 4) = Some u' /\
    narrows (construct 4) u'
      (fun v => poly_mod 4 [1; 2] v <=? poly_mod 4 [7] v) false.
Proof.
  exists_state (add_ule [1; 2] [7] false 1 (construct 4)).
  split; [reflexivity|].
  apply (add_ule_narrows [1; 2] [7] false 1 (construct 4)).
  - repeat constructor; unfold modulus; simpl; lia.
  - repeat constructor; unfold modulus; simpl; lia.
  - reflexivity.
Defined.

(** X6. The constant is read modulo [2^W]: [add_ule_const(val, sign, dep)]
    narrows the satisfying values to those with [x <= val mod 2^W] (to the
    others when [sign] is true), [add_uge_const] to those with
    [val mod 2^W <= x], and [add_bit(idx, sign, dep)] to those whose bit
    [idx] is set (to those where it is clear when [sign] is true). *)
Theorem add_const_narrows (val : Z) (idx : nat) (sign : bool) (dep : N)
  (u u' : univariate_bitblast_solver) :
  (add_ule_const val sign dep u = Some u' ->
   narrows u u' (fun v => v <=? val mod modulus (bit_width u)) sign) /\
  (add_uge_const val sign dep u = Some u' ->
   narrows u u' (fun v => val mod modulus (bit_width u) <=? v) sign) /\
  (add_bit idx sign dep u = Some u' ->
   narrows u u' (fun v => Z.testbit v (Z.of_nat idx)) sign).
Proof.
  repeat match goal with |- _ /\ _ => split end; intros H;
    (eapply add_narrows; [|exact H]); intros v; reflexivity.
Qed.

Lemma add_const_narrows_witness :
  exists u',
    add_ule_const 19 false 1 (construct 4) = Some u' /\
    narrows (construct 4) u' (fun v => v <=? 19 mod modulus 4) false.
Proof.
  exists_state (add_ule_const 19 false 1 (construct 4)).
  split; [reflexivity|].
  exact (proj1 (add_const_narrows 19 0 false 1 (construct 4) _) eq_refl).
Defined.

(** X7. The shift and bitwise assertions, on polynomials whose
    coefficients are below [2^(2^W)], narrow the satisfying values to those
    where the operation applied to the values of [in1] and [in2] modulo
    [2^W] equals the value of [out] (to the others when [sign] is true):
    logical and arithmetic shift right, shift left, and, or, xor, and the
    complement for [add_not]. *)
Theorem add_bitwise_narrows (in1 in2 out : univariate) (sign : bool)
  (dep : N) (u u' : univariate_bitblast_solver) :
  let W := bit_width u in
  coefficients_fit W in1 -> coefficients_fit W in2 ->
  coefficients_fit W out ->
  (add_lshr in1 in2 out sign dep u = Some u' ->
   narrows u u'
     (fun v => Z.shiftr (poly_mod W in1 v) (poly_mod W in2 v)
               =? poly_mod W out v) sign) /\
  (add_ashr in1 in2 out sign dep u = Some u' ->
   narrows u u'
     (fun v => wrap W (Z.shiftr (signed W (poly_mod W in1 v))
                         (poly_mod W in2 v))
               =? poly_mod W out v) sign) /\
  (add_shl in1 in2 out sign dep u = Some u' ->
   narrows u u'
     (fun v => wrap W (Z.shiftl (poly_mod W in1 v) (poly_mod W in2 v))
               =? poly_mod W out v) sign) /\
  (add_and in1 in2 out sign dep u = Some u' ->
   narrows u u'
     (fun v => Z.land (poly_mod W in1 v) (poly_mod W in2 v)
               =? poly_mod W out v) sign) /\
  (add_or in1 in2 out sign dep u = Some u' ->
   narrows u u'
     (fun v => Z.lor (poly_mod W in1 v) (poly_mod W in2 v)
               =? poly_mod W out v) sign) /\
  (add_xor in1 in2 out sign dep u = Some u' ->
   narrows u u'
     (fun v => Z.lxor (poly_mod W in1 v) (poly_mod W in2 v)
               =? poly_mod W out v) sign) /\
  (add_not in1 out sign dep u = Some u' ->
   narrows u u'
     (fun v => modulus W - 1 - poly_mod W in1 v =? poly_mod W out v) sign).
Proof.
  intros W H1 H2 Ho.
  repeat match goal with |- _ /\ _ => split end; intros H;
    (eapply add_narrows; [|exact H]); intros v;
    cbn [holds eval]; unfold poly_mod, W;
    now rewrite !mk_poly_value by assumption.
Qed.

Lemma add_bitwise_narrows_witness :
  exists u',
    add_and [0; 1] [6] [2] false 1 (construct 4) = Some u' /\
    narrows (construct 4) u'
      (fun v => Z.land (poly_mod 4 [0; 1] v) (poly_mod 4 [6] v)
                =? poly_mod 4 [2] v) false.
Proof.
  exists_state (add_and [0; 1] [6] [2] false 1 (construct 4)).
  split; [reflexivity|].
  refine (proj1 (proj2 (proj2 (proj2
            (add_bitwise_narrows [0; 1] [6] [2] false 1 (construct 4) _
               _ _ _)))) eq_refl);
    repeat constructor; unfold modulus; simpl; lia.
Defined.

(** X22. On polynomials whose coefficients are below [2^(2^W)],
    [add_umul_ovfl], [add_smul_ovfl] and [add_smul_udfl] narrow the
    satisfying values to those where the product of the two polynomial
    values modulo [2^W] does not overflow unsigned, does not overflow
    signed, resp. does not underflow signed, when [sign] is true, and to
    those where it does when [sign] is false: the flag reaches [add]
    inverted. *)
Theorem add_mul_overflow_narrows (lhs rhs : univariate) (sign : bool)
  (dep : N) (u u' : univariate_bitblast_solver) :
  let W := bit_width u in
  coefficients_fit W lhs -> coefficients_fit W rhs ->
  (add_umul_ovfl lhs rhs sign dep u = Some u' ->
   narrows u u'
     (fun v => no_unsigned_overflow W (poly_mod W lhs v) (poly_mod W rhs v))
     (negb sign)) /\
  (add_smul_ovfl lhs rhs sign dep u = Some u' ->
   narrows u u'
     (fun v => no_signed_overflow W (poly_mod W lhs v) (poly_mod W rhs v))
     (negb sign)) /\
  (add_smul_udfl lhs rhs sign dep u = Some u' ->
   narrows u u'
     (fun v => no_signed_underflow W (poly_mod W lhs v) (poly_mod W rhs v))
     (negb sign)).
Proof.
  intros W Hl Hr.
  repeat match goal with |- _ /\ _ => split end; intros H;
    (eapply add_narrows; [|exact H]); intros v;
    cbn [holds]; unfold poly_mod, W;
    now rewrite !mk_poly_value by assumption.
Qed.

Lemma add_mul_overflow_narrows_witness :
  exists u',
    add_umul_ovfl [0; 1] [3] false 1 (construct 4) = Some u' /\
    narrows (construct 4) u'
      (fun v => no_unsigned_overflow 4 (poly_mod 4 [0; 1] v)
                  (poly_mod 4 [3] v)) true /\
    map (fun v => holds_all 4 v (in_force u')) [5; 6] = [false; true].
Proof.
  exists_state (add_umul_ovfl [0; 1] [3] false 1 (construct 4)).
  split; [reflexivity|]. split; [|reflexivity].
  refine (proj1 (add_mul_overflow_narrows [0; 1] [3] false 1 (construct 4) _
                   _ _) eq_refl);
    repeat constructor; unfold modulus; simpl; lia.
Defined.

(* ================================================================== *)
(** * Further properties of scopes *)

Lemma run_app {dp : decision_procedure} (a b : list operation) :
  forall u, run (a ++ b) u
            = match run a u with Some u1 => run b u1 | None => None end.
Proof.
  induction a as [|o a IH]; intros u; [reflexivity|].
  cbn [app run]. destruct (step o u) as [u1|]; [apply IH|reflexivity].
Qed.

Lemma step_local_frame {dp : decision_procedure} (o : operation)
  (u u' : univariate_bitblast_solver) :
  scope_local o = true -> step o u = Some u' ->
  bit_width u' = bit_width u /\
  m_scope_level u' = m_scope_level u /\
  tl (scopes (s u')) = tl (scopes (s u)) /\
  tl (model_cache u') = tl (model_cache u).
Proof.
  intros Ho H.
  destruct o; try discriminate Ho; cbn [step] in H;
    try (apply add_inv in H; destruct H as (top & below & Hc & ->);
         cbn [bit_width m_scope_level s model_cache];
         rewrite tl_assert_expr, Hc; auto).
  - injection H as <-. auto.
  - destruct (model u) as [[val u0]|] eqn:Hm; [|discriminate].
    injection H as <-. apply model_frame in Hm.
    destruct Hm as (Hw & Hs & Hl & Hc & _). rewrite Hw, Hs, Hl, Hc. auto.
Qed.

Lemma run_local_frame {dp : decision_procedure} (ops : list operation) :
  forall u u',
    forallb scope_local ops = true -> run ops u = Some u' ->
    bit_width u' = bit_width u /\
    m_scope_level u' = m_scope_level u /\
    tl (scopes (s u')) = tl (scopes (s u)) /\
    tl (model_cache u') = tl (model_cache u).
Proof.
  induction ops as [|o ops IH]; intros u u' Hops H.
  - injection H as <-. auto.
  - cbn [forallb] in Hops. apply andb_true_iff in Hops.
    destruct Hops as [Ho Hops]. cbn [run] in H. bind_inv H.
    apply (step_local_frame o) in E; [|exact Ho].
    apply IH in H; [|exact Hops].
    destruct E as (E1 & E2 & E3 & E4). destruct H as (H1 & H2 & H3 & H4).
    rewrite H1, H2, H3, H4. auto.
Qed.

(** X8. Whatever is asserted, checked or looked up between a [push()] and
    the [pop(1)] that closes it is undone: the assertion stack, the cached
    models of all scopes and the width are those before the [push()], and
    so is the scope level as long as it is a 32-bit value. *)
Theorem push_pop_restores {dp : decision_procedure} (ops : list operation)
  (u u' : univariate_bitblast_solver) :
  forallb scope_local ops = true ->
  run (op_push :: ops ++ [op_pop 1]) u = Some u' ->
  bit_width u' = bit_width u /\
  scopes (s u') = scopes (s u) /\
  model_cache u' = model_cache u /\
  (0 <= scope_level u < 2 ^ 32 -> scope_level u' = scope_level u).
Proof.
  intros Hops H. cbn [run step] in H. bind_inv H.
  rewrite run_app in H. bind_inv H. cbn [run step] in H. bind_inv H.
  injection H as <-.
  apply run_local_frame in E0; [|exact Hops].
  destruct E0 as (Fw & Fl & Fs & Fc).
  apply push_inv in E. destruct E as (top & below & Hc & ->).
  apply pop_inv in E1. destruct E1 as (top' & below' & Hn & Hc' & ->).
  cbn [bit_width m_scope_level s model_cache scopes solver_push solver_pop
       tl] in *.
  change (Z.to_nat 1) with 1%nat.
  rewrite Hc' in Fc. cbn [tl] in Fc.
  repeat split.
  - exact Fw.
  - destruct (scopes (s u1)); cbn [skipn tl] in *; congruence.
  - congruence.
  - unfold scope_level. cbn [m_scope_level]. intros Hr.
    rewrite Fl in *. now apply scope_level_push_pop.
Qed.

Lemma push_pop_restores_witness :
  exists u u',
    run (dp := exhaustive) [op_add_ule_const 10 false 1; op_check; op_model]
      (construct 4) = Some u /\
    run (dp := exhaustive)
      (op_push :: [op_add_uge_const 5 false 2; op_check; op_model]
       ++ [op_pop 1]) u = Some u' /\
    scopes (s u') = scopes (s u) /\
    model_cache u' = model_cache u.
Proof.
  exists_state (run (dp := exhaustive)
                  [op_add_ule_const 10 false 1; op_check; op_model]
                  (construct 4)).
  lazymatch goal with
  | |- exists _, _ = Some ?u /\ _ =>
      exists_state (run (dp := exhaustive)
                      (op_push :: [op_add_uge_const 5 false 2; op_check;
                                   op_model] ++ [op_pop 1]) u);
      lazymatch goal with
      | |- _ /\ ?R = Some ?u' /\ _ =>
          assert (E : R = Some u') by (vm_compute; reflexivity);
          pose proof (push_pop_restores (dp := exhaustive)
                        [op_add_uge_const 5 false 2; op_check; op_model]
                        u u' eq_refl E) as (_ & Hs & Hc & _)
      end
  end.
  split; [reflexivity|]. split; [exact E|]. split; [exact Hs|exact Hc].
Defined.

Lemma step_scope_level {dp : decision_procedure} (o : operation)
  (u u' : univariate_bitblast_solver) :
  plain o ->
  0 <= m_scope_level u -> m_scope_level u + 1 < 2 ^ 32 ->
  step o u = Some u' ->
  m_scope_level u' = m_scope_level u + scope_delta o /\
  0 <= m_scope_level u'.
Proof.
  intros Ho Hl0 Hl1 H.
  destruct o; cbn [plain] in Ho; try contradiction; cbn [step scope_delta] in H;
    cbn [scope_delta];
    try (apply add_inv in H; destruct H as (top & below & _ & ->);
         cbn [m_scope_level]; lia).
  - apply push_inv in H. destruct H as (top & below & _ & ->).
    cbn [m_scope_level]. rewrite unsigned_wrap_small by lia. lia.
  - apply pop_inv in H. destruct H as (top & below & Hn & _ & ->).
    cbn [m_scope_level]. rewrite unsigned_wrap_small by lia. lia.
  - injection H as <-. cbn. lia.
  - destruct (model u) as [[val u0]|] eqn:Hm; [|discriminate].
    injection H as <-. apply model_frame in Hm.
    destruct Hm as (_ & _ & Hl & _). lia.
Qed.

(** X9. The scope level counts the scopes opened minus the scopes closed:
    after any run of [push], [pop(n)], [add_*], [check] and [model] that
    goes through, it is the level before plus the pushes minus the sum of
    the popped [n], and it never goes below zero (a [pop(n)] beyond the
    level stops the run in [SASSERT(scope_level() >= n)]).  The bound keeps
    the 32-bit counter from wrapping. *)
Theorem scope_level_counts_scopes {dp : decision_procedure}
  (ops : list operation) :
  forall u u',
    Forall plain ops ->
    0 <= scope_level u ->
    scope_level u + Z.of_nat (length ops) < 2 ^ 32 ->
    run ops u = Some u' ->
    scope_level u' = scope_level u + net_scopes ops /\
    0 <= scope_level u'.
Proof.
  unfold scope_level.
  induction ops as [|o ops IH]; intros u u' Hops Hl0 Hl1 H.
  - injection H as <-. cbn [net_scopes fold_right]. lia.
  - inversion Hops as [|o' ops' Ho Hrest]; subst.
    cbn [run] in H. bind_inv H.
    cbn [length] in Hl1. rewrite Nat2Z.inj_succ in Hl1.
    apply (step_scope_level o) in E; [|exact Ho|lia|lia].
    destruct E as [Ed E0].
    assert (Hd : scope_delta o <= 1)
      by (destruct o; cbn [scope_delta plain] in *; lia).
    apply IH in H; [|exact Hrest|lia|lia].
    cbn [net_scopes fold_right]. fold (net_scopes ops). lia.
Qed.

Lemma scope_level_counts_scopes_witness :
  exists u',
    run (dp := exhaustive)
      [op_push; op_push; op_add_bit 0 false 1; op_push; op_pop 2]
      (construct 4) = Some u' /\
    scope_level u' = 0 + net_scopes
      [op_push; op_push; op_add_bit 0 false 1; op_push; op_pop 2].
Proof.
  exists_state (run (dp := exhaustive)
      [op_push; op_push; op_add_bit 0 false 1; op_push; op_pop 2]
      (construct 4)).
  split; [reflexivity|].
  refine (proj1 (scope_level_counts_scopes (dp := exhaustive)
            [op_push; op_push; op_add_bit 0 false 1; op_push; op_pop 2]
            (construct 4) _ _ _ _ eq_refl)).
  - repeat constructor. cbn. lia.
  - cbn. lia.
  - cbn. lia.
Defined.

(* ================================================================== *)
(** * Further properties of the queries *)

(** X10. [model()] called twice in a row returns the same value both
    times; when that value is non-negative the second call is served from
    the cache and leaves the instance, request log included, as it is. *)
Theorem model_twice (u u1 : univariate_bitblast_solver) (v : Z) :
  model u = Some (v, u1) ->
  exists u2, model u1 = Some (v, u2) /\ (0 <= v -> u2 = u1).
Proof.
  intros H. pose proof H as H'. apply model_inv in H'.
  destruct H' as (top & below & Hc & [(Hpos & -> & ->)|(Hneg & Hlast & ->)]).
  - exists u. split; [exact H|reflexivity].
  - destruct (Z.lt_ge_cases v 0) as [Hv|Hv].
    + eexists. split; [|lia].
      now apply (model_fresh _ v below v).
    + eexists. split; [|reflexivity].
      now apply (model_cached _ v below).
Qed.

Lemma model_twice_witness :
  exists u u1,
    run (dp := exhaustive) [op_add_uge_const 5 false 1; op_check]
      (construct 4) = Some u /\
    model u = Some (5, u1) /\ model u1 = Some (5, u1).
Proof.
  exists_state (run (dp := exhaustive) [op_add_uge_const 5 false 1; op_check]
                  (construct 4)).
  lazymatch goal with
  | |- exists _, _ = Some ?u /\ _ => exists_state (model u)
  end.
  split; [reflexivity|].
  lazymatch goal with
  | |- ?M = Some (_, ?u1) /\ _ =>
      assert (E : M = Some (5, u1)) by reflexivity;
      destruct (model_twice _ u1 5 E) as (u2 & E2 & Hsame)
  end.
  split; [exact E|]. rewrite <- (Hsame ltac:(lia)) at 2. exact E2.
Defined.

(** X11. With no valid value cached for the current scope, [model()]
    right after [check()] returns exactly when [check()] answered sat, and
    then with the value that the decision procedure found; after any other
    answer it stops in [SASSERT(model)]. *)
Theorem model_after_check {dp : decision_procedure}
  (u u1 : univariate_bitblast_solver) (top : Z) (below : list Z)
  (r : lbool) :
  model_cache u = top :: below -> top < 0 ->
  check u = (r, u1) ->
  (r <> l_true -> model u1 = None) /\
  (r = l_true ->
   exists v u2, check_sat_core (bit_width u) (in_force u) = r_sat v /\
                model u1 = Some (v, u2)).
Proof.
  intros Hc Hneg Hcheck.
  unfold check, solver_check_sat in Hcheck. injection Hcheck as <- <-.
  unfold model. cbn [set_solver model_cache s]. rewrite Hc.
  replace (top <? 0) with true by (symmetry; now apply Z.ltb_lt).
  unfold solver_get_model. cbn [last_result]. fold (in_force u).
  destruct (check_sat_core (bit_width u) (in_force u)) as [v|core|];
    cbn [lbool_of]; split; intros Hr;
    try reflexivity; try discriminate Hr; try (now contradiction Hr).
  eauto.
Qed.

Lemma model_after_check_witness :
  exists u u1,
    run (dp := exhaustive)
      [op_add_ule_const 3 false 1; op_add_uge_const 9 false 2]
      (construct 4) = Some u /\
    check (dp := exhaustive) u = (l_false, u1) /\
    model u1 = None.
Proof.
  exists_state (run (dp := exhaustive)
      [op_add_ule_const 3 false 1; op_add_uge_const 9 false 2]
      (construct 4)).
  lazymatch goal with
  | |- exists _, _ = Some ?u /\ _ =>
      exists_state (check (dp := exhaustive) u);
      split; [reflexivity|]; split; [reflexivity|];
      refine (proj1 (model_after_check (dp := exhaustive) u _ (-1) []
                       l_false eq_refl _ eq_refl) _)
  end; [lia|discriminate].
Defined.

(** X12. [unsat_core()] right after a [check()] that did not answer unsat
    has no core to report and stops in [SASSERT(deps.size() > 0)]. *)
Theorem unsat_core_after_check {dp : decision_procedure}
  (u u1 : univariate_bitblast_solver) (r : lbool) :
  check u = (r, u1) -> r <> l_false -> unsat_core u1 = None.
Proof.
  intros Hcheck Hr.
  unfold check, solver_check_sat in Hcheck. injection Hcheck as <- <-.
  unfold unsat_core, solver_get_unsat_core. cbn [set_solver s last_result].
  destruct (check_sat_core (bit_width u) (assertions (s u))) as [v|core|];
    cbn [lbool_of] in Hr; try reflexivity.
  now contradiction Hr.
Qed.

Lemma unsat_core_after_check_witness :
  exists u u1,
    add_ule_const 3 false 1 (construct 4) = Some u /\
    check (dp := exhaustive) u = (l_true, u1) /\
    unsat_core u1 = None.
Proof.
  exists_state (add_ule_const 3 false 1 (construct 4)).
  lazymatch goal with
  | |- exists _, _ = Some ?u /\ _ =>
      exists_state (check (dp := exhaustive) u);
      split; [reflexivity|]; split; [reflexivity|];
      refine (unsat_core_after_check (dp := exhaustive) u _ l_true eq_refl _)
  end. discriminate.
Defined.

(* ================================================================== *)
(** * Further properties of the extremal search *)

(** At entry of a successful search [model()] had a value, and the cache
    is again what that call left. *)
Lemma find_min_cache {dp : decision_procedure}
  (u u' : univariate_bitblast_solver) (v : Z) :
  find_min u = Some (true, v, u') ->
  exists v0 u0, model u = Some (v0, u0) /\ model_cache u' = model_cache u0.
Proof.
  intros H. unfold find_min in H.
  destruct (model u) as [[val u0]|] eqn:Hmodel; [|discriminate].
  exists val, u0. split; [reflexivity|].
  bind_inv H.
  destruct (find_min_loop (bit_width u1) val u1) as [[[ok' val'] u2]|]
    eqn:Hloop; [|discriminate].
  destruct ok'; [|discriminate]. bind_inv H. injection H as _ <-.
  apply find_min_loop_frame in Hloop. destruct Hloop as (_ & _ & Lc & _).
  apply push_inv in E. destruct E as (top & below & Hc & ->).
  apply pop_inv in E0. destruct E0 as (top' & below' & _ & Hc' & ->).
  cbn [model_cache tl] in *. rewrite Hc' in Lc. cbn [tl] in Lc. congruence.
Qed.

Lemma find_max_cache {dp : decision_procedure}
  (u u' : univariate_bitblast_solver) (v : Z) :
  find_max u = Some (true, v, u') ->
  exists v0 u0, model u = Some (v0, u0) /\ model_cache u' = model_cache u0.
Proof.
  intros H. unfold find_max in H.
  destruct (model u) as [[val u0]|] eqn:Hmodel; [|discriminate].
  exists val, u0. split; [reflexivity|].
  bind_inv H.
  destruct (find_max_loop (bit_width u1) val u1) as [[[ok' val'] u2]|]
    eqn:Hloop; [|discriminate].
  destruct ok'; [|discriminate]. bind_inv H. injection H as _ <-.
  apply find_max_loop_frame in Hloop. destruct Hloop as (_ & _ & Lc & _).
  apply push_inv in E. destruct E as (top & below & Hc & ->).
  apply pop_inv in E0. destruct E0 as (top' & below' & _ & Hc' & ->).
  cbn [model_cache tl] in *. rewrite Hc' in Lc. cbn [tl] in Lc. congruence.
Qed.

Lemma model_after_search (u u0 u' : univariate_bitblast_solver) (v0 : Z) :
  model u = Some (v0, u0) -> model_cache u' = model_cache u0 ->
  hd_error (model_cache u') = Some v0 /\
  (0 <= v0 -> model u' = Some (v0, u')).
Proof.
  intros Hm Hc. apply model_frame in Hm. destruct Hm as (_ & _ & _ & _ & Hhd).
  rewrite Hc. split; [exact Hhd|].
  intros Hpos. destruct (model_cache u0) as [|top below] eqn:Hc0;
    [discriminate Hhd|].
  injection Hhd as ->. now apply (model_cached u' v0 below).
Qed.

(** X13. After a successful [find_min] or [find_max] the cached model of
    the current scope is the one that [model()] returned at entry of the
    search, not the extremum found: [model()] right after the search
    returns that entry value, from the cache. *)
Theorem search_keeps_entry_model {dp : decision_procedure}
  (u u' : univariate_bitblast_solver) (v : Z) :
  find_min u = Some (true, v, u') \/ find_max u = Some (true, v, u') ->
  exists v0 u0,
    model u = Some (v0, u0) /\
    model_cache u' = model_cache u0 /\
    hd_error (model_cache u') = Some v0 /\
    (0 <= v0 -> model u' = Some (v0, u')).
Proof.
  intros [H|H];
    [apply find_min_cache in H|apply find_max_cache in H];
    destruct H as (v0 & u0 & Hm & Hc);
    exists v0, u0; (split; [exact Hm|]); (split; [exact Hc|]);
    now apply (model_after_search u u0).
Qed.

Lemma search_keeps_entry_model_witness :
  exists u u',
    run (dp := exhaustive) [op_add_ule_const 10 false 1; op_check]
      (construct 4) = Some u /\
    find_max (dp := exhaustive) u = Some (true, 10, u') /\
    model u' = Some (0, u').
Proof.
  exists_state (run (dp := exhaustive) [op_add_ule_const 10 false 1; op_check]
                  (construct 4)).
  lazymatch goal with
  | |- exists _, _ = Some ?u /\ _ =>
      exists_state (find_max (dp := exhaustive) u);
      lazymatch goal with
      | |- _ /\ ?F = Some (_, _, ?u') /\ _ =>
          assert (E : F = Some (true, 10, u')) by (vm_compute; reflexivity);
          destruct (search_keeps_entry_model (dp := exhaustive) u u' 10
                      (or_intror E)) as (v0 & u0 & Hm & _ & _ & Hafter)
      end
  end.
  vm_compute in Hm. injection Hm as <- _.
  split; [reflexivity|]. split; [exact E|]. apply Hafter. lia.
Defined.

Section Value.
Context {dp : decision_procedure} (dp_sound : sound dp).

(** Whichever way the loop of [find_min] ends, [val] satisfies the entry
    assertions and has not grown. *)
Lemma find_min_loop_value (W : nat) (A : list assertion) (k : nat) :
  forall val u ok v u',
    bit_width u = W -> models W A val ->
    (forall x, models W (in_force u) x <->
               models W A x /\ high k x = high k val) ->
    find_min_loop k val u = Some (ok, v, u') ->
    models W A v /\ v <= val.
Proof.
  induction k as [|k IH]; intros val u ok v u' Hw Hval Hforced H.
  - injection H as _ <- _. split; [exact Hval|lia].
  - cbn [find_min_loop] in H. subst W.
    destruct (Z.testbit val (Z.of_nat k)) eqn:Hbit; cbn [negb] in H.
    + bind_inv H. bind_inv H.
      destruct (check u1) as [result u2] eqn:Hcheck.
      inv_calls. list_eqs.
      rewrite assertions_bit_pushed in H. fold (in_force u) in H.
      destruct (check_sat_core (bit_width u)
                  ((mk_not (mk_bit2bool bv_x k), symbol_num 0) :: in_force u))
        as [m|core|] eqn:Hdp; cbn [lbool_of] in H.
      * pose proof (sat_sound dp dp_sound _ _ _ Hdp) as Hm.
        apply models_cons in Hm. destruct Hm as [Hmbit Hm].
        apply (holds_bit_assertion (bit_width u) k false m) in Hmbit.
        apply Hforced in Hm. destruct Hm as [HmA Hmhigh].
        erewrite model_fresh in H; [|reflexivity|lia|reflexivity].
        destruct (Z.ltb_spec m val) as [Hlt|]; [|discriminate].
        erewrite model_cached in H; [|reflexivity|destruct HmA; lia].
        bind_inv H. bind_inv H. inv_calls. list_eqs.
        eapply IH in H; [split; [apply H|lia]|reflexivity|exact HmA|].
        apply (forced_step _ _ _ _ _ _ _ false Hforced);
          [in_force_bit|exact Hmhigh|exact Hmbit].
      * bind_inv H. bind_inv H. inv_calls. list_eqs.
        eapply IH in H; [exact H|reflexivity|exact Hval|].
        apply (forced_step _ _ _ _ _ _ _ true Hforced);
          [in_force_bit|reflexivity|exact Hbit].
      * bind_inv H. injection H as _ <- _. split; [exact Hval|lia].
    + bind_inv H. inv_calls. list_eqs.
      eapply IH in H; [exact H|reflexivity|exact Hval|].
      apply (forced_step _ _ _ _ _ _ _ false Hforced);
        [in_force_bit|reflexivity|exact Hbit].
Qed.

Lemma find_max_loop_value (W : nat) (A : list assertion) (k : nat) :
  forall val u ok v u',
    bit_width u = W -> models W A val ->
    (forall x, models W (in_force u) x <->
               models W A x /\ high k x = high k val) ->
    find_max_loop k val u = Some (ok, v, u') ->
    models W A v /\ val <= v.
Proof.
  induction k as [|k IH]; intros val u ok v u' Hw Hval Hforced H.
  - injection H as _ <- _. split; [exact Hval|lia].
  - cbn [find_max_loop] in H. subst W.
    destruct (Z.testbit val (Z.of_nat k)) eqn:Hbit.
    + bind_inv H. inv_calls. list_eqs.
      eapply IH in H; [exact H|reflexivity|exact Hval|].
      apply (forced_step _ _ _ _ _ _ _ true Hforced);
        [in_force_bit|reflexivity|exact Hbit].
    + bind_inv H. bind_inv H.
      destruct (check u1) as [result u2] eqn:Hcheck.
      inv_calls. list_eqs.
      rewrite assertions_bit_pushed in H. fold (in_force u) in H.
      destruct (check_sat_core (bit_width u)
                  ((mk_bit2bool bv_x k, symbol_num 0) :: in_force u))
        as [m|core|] eqn:Hdp; cbn [lbool_of] in H.
      * pose proof (sat_sound dp dp_sound _ _ _ Hdp) as Hm.
        apply models_cons in Hm. destruct Hm as [Hmbit Hm].
        apply (holds_bit_assertion (bit_width u) k true m) in Hmbit.
        apply Hforced in Hm. destruct Hm as [HmA Hmhigh].
        erewrite model_fresh in H; [|reflexivity|lia|reflexivity].
        destruct (Z.ltb_spec val m) as [Hlt|]; [|discriminate].
        erewrite model_cached in H; [|reflexivity|destruct HmA; lia].
        bind_inv H. bind_inv H. inv_calls. list_eqs.
        eapply IH in H; [split; [apply H|lia]|reflexivity|exact HmA|].
        apply (forced_step _ _ _ _ _ _ _ true Hforced);
          [in_force_bit|exact Hmhigh|exact Hmbit].
      * bind_inv H. bind_inv H. inv_calls. list_eqs.
        eapply IH in H; [exact H|reflexivity|exact Hval|].
        apply (forced_step _ _ _ _ _ _ _ false Hforced);
          [in_force_bit|reflexivity|exact Hbit].
      * bind_inv H. injection H as _ <- _. split; [exact Hval|lia].
Qed.

(** X14. Whether [find_min] returns [true] or [false], the value it
    leaves in [val] satisfies every assertion in force at entry and is at
    most the model that the search started from; for [find_max] it is at
    least that model.  A search that gives up still hands back the best
    value found so far. *)
Theorem search_value_is_model (u u' : univariate_bitblast_solver)
  (ok : bool) (v : Z) :
  cache_consistent u -> result_current u ->
  (find_min u = Some (ok, v, u') ->
   exists v0 u0, model u = Some (v0, u0) /\
                 models (bit_width u) (in_force u) v /\ v <= v0) /\
  (find_max u = Some (ok, v, u') ->
   exists v0 u0, model u = Some (v0, u0) /\
                 models (bit_width u) (in_force u) v /\ v0 <= v).
Proof.
  intros Hcache Hres. split; intros H.
  - unfold find_min in H.
    destruct (model u) as [[val u0]|] eqn:Hmodel; [|discriminate].
    destruct (model_models dp_sound _ _ _ Hcache Hres Hmodel)
      as (Hval & Hw & HA).
    exists val, u0. split; [reflexivity|]. clear Hmodel. bind_inv H.
    destruct (find_min_loop (bit_width u1) val u1) as [[[ok' val'] u2]|]
      eqn:Hloop; [|discriminate].
    assert (Hv : val' = v).
    { destruct ok'; [bind_inv H|]; now injection H as _ <- _. }
    subst val'. clear H.
    apply push_inv in E. destruct E as (top & below & _ & ->).
    cbn [bit_width] in Hloop.
    apply (find_min_loop_value (bit_width u) (in_force u)) in Hloop;
      [exact Hloop|exact Hw|exact Hval|].
    rewrite <- Hw, <- HA. rewrite <- Hw, <- HA in Hval.
    match goal with
    | |- forall x, models _ (in_force ?u1) _ <-> _ =>
        exact (min_forced _ _ _ _ _ (min_invariant_entry u1 val Hval))
    end.
  - unfold find_max in H.
    destruct (model u) as [[val u0]|] eqn:Hmodel; [|discriminate].
    destruct (model_models dp_sound _ _ _ Hcache Hres Hmodel)
      as (Hval & Hw & HA).
    exists val, u0. split; [reflexivity|]. clear Hmodel. bind_inv H.
    destruct (find_max_loop (bit_width u1) val u1) as [[[ok' val'] u2]|]
      eqn:Hloop; [|discriminate].
    assert (Hv : val' = v).
    { destruct ok'; [bind_inv H|]; now injection H as _ <- _. }
    subst val'. clear H.
    apply push_inv in E. destruct E as (top & below & _ & ->).
    cbn [bit_width] in Hloop.
    apply (find_max_loop_value (bit_width u) (in_force u)) in Hloop;
      [exact Hloop|exact Hw|exact Hval|].
    rewrite <- Hw, <- HA. rewrite <- Hw, <- HA in Hval.
    match goal with
    | |- forall x, models _ (in_force ?u1) _ <-> _ =>
        exact (max_forced _ _ _ _ _ (max_invariant_entry u1 val Hval))
    end.
Qed.

End Value.

Lemma search_value_is_model_witness :
  exists u u',
    run (dp := bounded) [op_add_uge_const 1 false 1; op_check] (construct 4)
      = Some u /\
    find_max (dp := bounded) u = Some (false, 14, u') /\
    models 4 (in_force u) 14.
Proof.
  exists_state (run (dp := bounded) [op_add_uge_const 1 false 1; op_check]
                  (construct 4)).
  lazymatch goal with
  | |- exists _, _ = Some ?u /\ _ =>
      exists_state (find_max (dp := bounded) u);
      lazymatch goal with
      | |- _ /\ ?F = Some (_, _, ?u') /\ _ =>
          assert (E : F = Some (false, 14, u')) by (vm_compute; reflexivity);
          assert (Hc : cache_consistent u)
            by (intros top below [= <- <-] Hpos; exfalso; lia);
          assert (Hr : @result_current bounded u)
            by (intros r [= <-]; reflexivity);
          destruct (proj2 (search_value_is_model bounded_sound u u' false 14
                             Hc Hr) E) as (v0 & u0 & _ & Hm & _)
      end
  end.
  split; [reflexivity|]. split; [exact E|exact Hm].
Defined.

Lemma checks_app (a b : list request) :
  checks (a ++ b) = (checks a + checks b)%nat.
Proof. unfold checks. now rewrite filter_app, length_app. Qed.

(** The requests in the log [L] that came after those of [base]. *)
Ltac log_since L base :=
  lazymatch L with
  | base => constr:(@nil request)
  | ?r :: ?L' => let m := log_since L' base in constr:(r :: m)
  end.

(** Extends the log bound of the induction hypothesis [H] by the requests
    of one more iteration. *)
Ltac extend_log H base :=
  destruct H as (new & Hlog & Hn);
  unfold solver_assert_expr, solver_pop, solver_push, solver_get_model
    in Hlog;
  cbn [requests snd] in Hlog;
  lazymatch type of Hlog with
  | _ = new ++ ?L =>
      let mid := log_since L base in
      exists (new ++ mid); split;
      [rewrite <- app_assoc; exact Hlog
      |rewrite checks_app; cbn; lia]
  end.

Lemma find_min_loop_checks {dp : decision_procedure} (k : nat) :
  forall val u ok v u',
    find_min_loop k val u = Some (ok, v, u') ->
    exists new, requests (s u') = new ++ requests (s u) /\
                (checks new <= k)%nat.
Proof.
  induction k as [|k IH]; intros val u ok v u' H.
  - injection H as _ _ <-. exists []. split; [reflexivity|cbn; lia].
  - cbn [find_min_loop] in H.
    destruct (negb (Z.testbit val (Z.of_nat k))).
    + bind_inv H. apply IH in H. inv_calls. list_eqs.
      extend_log H (requests (s u)).
    + bind_inv H. bind_inv H.
      destruct (check u1) as [result u2] eqn:Hcheck.
      destruct result.
      * bind_inv H. bind_inv H. apply IH in H. inv_calls. list_eqs.
        extend_log H (requests (s u)).
      * bind_inv H. injection H as _ _ <-. inv_calls; list_eqs.
        unfold solver_assert_expr. cbn [requests].
        exists [req_pop 1; req_check_sat;
                req_assert_expr (mk_not (mk_bit2bool bv_x k)) (symbol_num 0);
                req_push].
        split; [reflexivity|cbn; lia].
      * destruct (model u2) as [[m u3]|] eqn:Hm1; [|discriminate].
        destruct (m <? val); [|discriminate].
        destruct (model u3) as [[val' u4]|] eqn:Hm2; [|discriminate].
        bind_inv H. bind_inv H. apply IH in H.
        inv_calls; list_eqs; try lia; extend_log H (requests (s u)).
Qed.

Lemma find_max_loop_checks {dp : decision_procedure} (k : nat) :
  forall val u ok v u',
    find_max_loop k val u = Some (ok, v, u') ->
    exists new, requests (s u') = new ++ requests (s u) /\
                (checks new <= k)%nat.
Proof.
  induction k as [|k IH]; intros val u ok v u' H.
  - injection H as _ _ <-. exists []. split; [reflexivity|cbn; lia].
  - cbn [find_max_loop] in H.
    destruct (Z.testbit val (Z.of_nat k)).
    + bind_inv H. apply IH in H. inv_calls. list_eqs.
      extend_log H (requests (s u)).
    + bind_inv H. bind_inv H.
      destruct (check u1) as [result u2] eqn:Hcheck.
      destruct result.
      * bind_inv H. bind_inv H. apply IH in H. inv_calls. list_eqs.
        extend_log H (requests (s u)).
      * bind_inv H. injection H as _ _ <-. inv_calls; list_eqs.
        unfold solver_assert_expr. cbn [requests].
        exists [req_pop 1; req_check_sat;
                req_assert_expr (mk_bit2bool bv_x k) (symbol_num 0);
                req_push].
        split; [reflexivity|cbn; lia].
      * destruct (model u2) as [[m u3]|] eqn:Hm1; [|discriminate].
        destruct (val <? m); [|discriminate].
        destruct (model u3) as [[val' u4]|] eqn:Hm2; [|discriminate].
        bind_inv H. bind_inv H. apply IH in H.
        inv_calls; list_eqs; try lia; extend_log H (requests (s u)).
Qed.

Lemma model_log (u u' : univariate_bitblast_solver) (v : Z) :
  model u = Some (v, u') ->
  exists new, requests (s u') = new ++ requests (s u) /\ checks new = 0%nat.
Proof.
  intros H. apply model_inv in H.
  destruct H as (top & below & _ & [(_ & _ & ->)|(_ & _ & ->)]).
  - now exists [].
  - now exists [req_get_model].
Qed.

(** X15. [find_min] and [find_max] only add to the requests sent to the
    decision procedure, and among those they add there are at most
    [bit_width] satisfiability checks: one per bit at most, whichever way
    the search ends. *)
Theorem search_checks_at_most_width {dp : decision_procedure}
  (u u' : univariate_bitblast_solver) (ok : bool) (v : Z) :
  find_min u = Some (ok, v, u') \/ find_max u = Some (ok, v, u') ->
  exists new,
    requests (s u') = new ++ requests (s u) /\
    (checks new <= bit_width u)%nat.
Proof.
  intros [H|H].
  - unfold find_min in H.
    destruct (model u) as [[val u0]|] eqn:Hmodel; [|discriminate].
    pose proof (model_frame _ _ _ Hmodel) as (Hw & _).
    apply model_log in Hmodel. destruct Hmodel as (n0 & L0 & C0).
    bind_inv H.
    destruct (find_min_loop (bit_width u1) val u1) as [[[ok' val'] u2]|]
      eqn:Hloop; [|discriminate].
    apply find_min_loop_checks in Hloop. destruct Hloop as (n1 & L1 & C1).
    apply push_inv in E. destruct E as (top & below & _ & ->).
    cbn [bit_width s solver_push requests] in *. rewrite Hw in C1.
    destruct ok'.
    + bind_inv H. injection H as _ _ <-.
      apply pop_inv in E. destruct E as (top' & below' & _ & _ & ->).
      cbn [s solver_pop requests].
      exists (req_pop 1 :: n1 ++ req_push :: n0). split.
      * rewrite L1, L0. cbn [app]. now rewrite <- app_assoc.
      * change (req_pop 1 :: n1 ++ req_push :: n0)
          with ([req_pop 1] ++ n1 ++ [req_push] ++ n0).
        rewrite !checks_app, C0. cbn. lia.
    + injection H as _ _ <-.
      exists (n1 ++ req_push :: n0). split.
      * rewrite L1, L0. now rewrite <- app_assoc.
      * change (n1 ++ req_push :: n0) with (n1 ++ [req_push] ++ n0).
        rewrite !checks_app, C0. cbn. lia.
  - unfold find_max in H.
    destruct (model u) as [[val u0]|] eqn:Hmodel; [|discriminate].
    pose proof (model_frame _ _ _ Hmodel) as (Hw & _).
    apply model_log in Hmodel. destruct Hmodel as (n0 & L0 & C0).
    bind_inv H.
    destruct (find_max_loop (bit_width u1) val u1) as [[[ok' val'] u2]|]
      eqn:Hloop; [|discriminate].
    apply find_max_loop_checks in Hloop. destruct Hloop as (n1 & L1 & C1).
    apply push_inv in E. destruct E as (top & below & _ & ->).
    cbn [bit_width s solver_push requests] in *. rewrite Hw in C1.
    destruct ok'.
    + bind_inv H. injection H as _ _ <-.
      apply pop_inv in E. destruct E as (top' & below' & _ & _ & ->).
      cbn [s solver_pop requests].
      exists (req_pop 1 :: n1 ++ req_push :: n0). split.
      * rewrite L1, L0. cbn [app]. now rewrite <- app_assoc.
      * change (req_pop 1 :: n1 ++ req_push :: n0)
          with ([req_pop 1] ++ n1 ++ [req_push] ++ n0).
        rewrite !checks_app, C0. cbn. lia.
    + injection H as _ _ <-.
      exists (n1 ++ req_push :: n0). split.
      * rewrite L1, L0. now rewrite <- app_assoc.
      * change (n1 ++ req_push :: n0) with (n1 ++ [req_push] ++ n0).
        rewrite !checks_app, C0. cbn. lia.
Qed.

Lemma search_checks_at_most_width_witness :
  exists u u' new,
    run (dp := exhaustive) [op_add_ule_const 10 false 1; op_check]
      (construct 4) = Some u /\
    find_max (dp := exhaustive) u = Some (true, 10, u') /\
    requests (s u') = new ++ requests (s u) /\
    (checks new <= 4)%nat.
Proof.
  exists_state (run (dp := exhaustive) [op_add_ule_const 10 false 1; op_check]
                  (construct 4)).
  lazymatch goal with
  | |- exists _ _, _ = Some ?u /\ _ =>
      exists_state (find_max (dp := exhaustive) u);
      lazymatch goal with
      | |- exists _, _ /\ ?F = Some (_, _, ?u') /\ _ =>
          assert (E : F = Some (true, 10, u')) by (vm_compute; reflexivity);
          destruct (search_checks_at_most_width (dp := exhaustive) u u' true
                      10 (or_intror E)) as (new & Hlog & Hn)
      end
  end.
  exists new. split; [reflexivity|]. split; [exact E|].
  split; [exact Hlog|exact Hn].
Defined.

(** X16. The two searches compose: after a successful [find_min] on a
    consistent instance, a successful [find_max] still sees the assertions
    that were in force before either search, so the two values are the
    least and the greatest satisfying value of the same constraint set, and
    that set is again in force afterwards. *)
Theorem find_min_then_find_max {dp : decision_procedure}
  (u u1 u2 : univariate_bitblast_solver) (vmin vmax : Z) :
  sound dp -> consistent u ->
  find_min u = Some (true, vmin, u1) ->
  find_max u1 = Some (true, vmax, u2) ->
  (models (bit_width u) (in_force u) vmin /\
   forall x, models (bit_width u) (in_force u) x -> vmin <= x) /\
  (models (bit_width u) (in_force u) vmax /\
   forall x, models (bit_width u) (in_force u) x -> x <= vmax) /\
  vmin <= vmax /\
  in_force u2 = in_force u.
Proof.
  intros Hs Hu Hmin Hmax.
  pose proof (find_min_least Hs u u1 vmin (consistent_cache u Hu) (proj2 Hu)
                Hmin) as Lmin.
  pose proof (find_min_consistent Hs u u1 true vmin Hu Hmin) as Hu1.
  pose proof (find_max_greatest Hs u1 u2 vmax (consistent_cache u1 Hu1)
                (proj2 Hu1) Hmax) as Lmax.
  apply find_min_frame in Hmin. destruct Hmin as (Hw1 & Hs1 & _).
  apply find_max_frame in Hmax. destruct Hmax as (_ & Hs2 & _).
  assert (HA1 : in_force u1 = in_force u)
    by (unfold in_force, assertions; now rewrite Hs1).
  assert (HA2 : in_force u2 = in_force u)
    by (unfold in_force, assertions; now rewrite Hs2, Hs1).
  rewrite Hw1, HA1 in Lmax.
  split; [exact Lmin|]. split; [exact Lmax|]. split; [|exact HA2].
  apply Lmin, Lmax.
Qed.

Lemma find_min_then_find_max_witness :
  exists u u1 u2,
    run (dp := exhaustive)
      [op_add_uge_const 5 false 1; op_add_ule_const 10 false 2; op_check]
      (construct 4) = Some u /\
    find_min (dp := exhaustive) u = Some (true, 5, u1) /\
    find_max (dp := exhaustive) u1 = Some (true, 10, u2) /\
    5 <= 10 /\ in_force u2 = in_force u.
Proof.
  exists_state (run (dp := exhaustive)
      [op_add_uge_const 5 false 1; op_add_ule_const 10 false 2; op_check]
      (construct 4)).
  lazymatch goal with
  | |- exists _ _, ?R = Some ?u /\ _ =>
      assert (Hrun : R = Some u) by (vm_compute; reflexivity);
      exists_state (find_min (dp := exhaustive) u);
      lazymatch goal with
      | |- exists _, _ /\ ?F = Some (_, _, ?u1) /\ _ =>
          assert (E1 : F = Some (true, 5, u1)) by (vm_compute; reflexivity);
          exists_state (find_max (dp := exhaustive) u1);
          lazymatch goal with
          | |- _ /\ _ /\ ?G = Some (_, _, ?u2) /\ _ =>
              assert (E2 : G = Some (true, 10, u2))
                by (vm_compute; reflexivity);
              assert (Hu : @consistent exhaustive u)
                by (eapply (run_consistent exhaustive_sound);
                    [|apply construct_consistent|exact Hrun];
                    repeat constructor);
              pose proof (find_min_then_find_max (dp := exhaustive) u u1 u2
                            5 10 exhaustive_sound Hu E1 E2)
                as (_ & _ & Hle & HA)
          end
      end
  end.
  split; [exact Hrun|]. split; [exact E1|]. split; [exact E2|].
  split; [exact Hle|exact HA].
Defined.

Lemma find_min_loop_succeeds {dp : decision_procedure} (k : nat) :
  decides dp ->
  forall val u ok v u',
    find_min_loop k val u = Some (ok, v, u') -> ok = true.
Proof.
  intros Hd. induction k as [|k IH]; intros val u ok v u' H.
  - now injection H as <- _ _.
  - cbn [find_min_loop] in H.
    destruct (negb (Z.testbit val (Z.of_nat k))).
    + bind_inv H. now apply IH in H.
    + bind_inv H. bind_inv H.
      destruct (check u1) as [result u2] eqn:Hcheck.
      unfold check, solver_check_sat in Hcheck. injection Hcheck as <- _.
      destruct (check_sat_core (bit_width u1) (assertions (s u1)))
        as [m|core|] eqn:Hdp; cbn [lbool_of] in H.
      * destruct (model u2) as [[m' u3]|]; [|discriminate].
        destruct (m' <? val); [|discriminate].
        destruct (model u3) as [[val' u4]|]; [|discriminate].
        bind_inv H. bind_inv H. now apply IH in H.
      * bind_inv H. bind_inv H. now apply IH in H.
      * now apply Hd in Hdp.
Qed.

Lemma find_max_loop_succeeds {dp : decision_procedure} (k : nat) :
  decides dp ->
  forall val u ok v u',
    find_max_loop k val u = Some (ok, v, u') -> ok = true.
Proof.
  intros Hd. induction k as [|k IH]; intros val u ok v u' H.
  - now injection H as <- _ _.
  - cbn [find_max_loop] in H.
    destruct (Z.testbit val (Z.of_nat k)).
    + bind_inv H. now apply IH in H.
    + bind_inv H. bind_inv H.
      destruct (check u1) as [result u2] eqn:Hcheck.
      unfold check, solver_check_sat in Hcheck. injection Hcheck as <- _.
      destruct (check_sat_core (bit_width u1) (assertions (s u1)))
        as [m|core|] eqn:Hdp; cbn [lbool_of] in H.
      * destruct (model u2) as [[m' u3]|]; [|discriminate].
        destruct (val <? m'); [|discriminate].
        destruct (model u3) as [[val' u4]|]; [|discriminate].
        bind_inv H. bind_inv H. now apply IH in H.
      * bind_inv H. bind_inv H. now apply IH in H.
      * now apply Hd in Hdp.
Qed.

(** X17. On a consistent instance where [model()] has a value to return,
    with room for two more scopes below the 32-bit limit of the scope
    level, [find_min] and [find_max] run to their end: no assertion of the
    class fails on the way, [SASSERT(model() < val)] and
    [SASSERT(model() > val)] included.  When the decision procedure never
    answers unknown they return [true]. *)
Theorem search_returns {dp : decision_procedure}
  (u : univariate_bitblast_solver) :
  sound dp -> consistent u ->
  0 <= scope_level u -> scope_level u + 2 < 2 ^ 32 ->
  model u <> None ->
  (exists ok v u', find_min u = Some (ok, v, u') /\
                   (decides dp -> ok = true)) /\
  (exists ok v u', find_max u = Some (ok, v, u') /\
                   (decides dp -> ok = true)).
Proof.
  intros Hs Hu Hl0 Hl1 Hm. split.
  - destruct (find_min_returns Hs u Hu Hl0 Hl1 Hm) as (ok & v & u' & H).
    exists ok, v, u'. split; [exact H|]. intros Hd.
    unfold find_min in H.
    destruct (model u) as [[val u0]|]; [|discriminate]. bind_inv H.
    destruct (find_min_loop (bit_width u1) val u1) as [[[ok' val'] u2]|]
      eqn:Hloop; [|discriminate].
    apply (find_min_loop_succeeds _ Hd) in Hloop. subst ok'.
    bind_inv H. now injection H as <- _ _.
  - destruct (find_max_returns Hs u Hu Hl0 Hl1 Hm) as (ok & v & u' & H).
    exists ok, v, u'. split; [exact H|]. intros Hd.
    unfold find_max in H.
    destruct (model u) as [[val u0]|]; [|discriminate]. bind_inv H.
    destruct (find_max_loop (bit_width u1) val u1) as [[[ok' val'] u2]|]
      eqn:Hloop; [|discriminate].
    apply (find_max_loop_succeeds _ Hd) in Hloop. subst ok'.
    bind_inv H. now injection H as <- _ _.
Qed.

Lemma search_returns_witness :
  exists u,
    run (dp := exhaustive) [op_add_uge_const 5 false 1; op_check]
      (construct 4) = Some u /\
    exists ok v u', find_min (dp := exhaustive) u = Some (ok, v, u').
Proof.
  exists_state (run (dp := exhaustive) [op_add_uge_const 5 false 1; op_check]
                  (construct 4)).
  lazymatch goal with
  | |- ?R = Some ?u /\ _ =>
      assert (Hrun : R = Some u) by (vm_compute; reflexivity);
      assert (Hu : @consistent exhaustive u)
        by (eapply (run_consistent exhaustive_sound);
            [|apply construct_consistent|exact Hrun]; repeat constructor);
      assert (Hm : model u <> None) by discriminate;
      assert (Hl0 : 0 <= scope_level u) by (cbn; lia);
      assert (Hl1 : scope_level u + 2 < 2 ^ 32) by (cbn; lia);
      destruct (proj1 (search_returns (dp := exhaustive) u exhaustive_sound
                         Hu Hl0 Hl1 Hm)) as (ok & v & u' & H & _)
  end.
  split; [exact Hrun|]. now exists ok, v, u'.
Defined.

Lemma step_width {dp : decision_procedure} (o : operation)
  (u u' : univariate_bitblast_solver) :
  step o u = Some u' -> bit_width u' = bit_width u.
Proof.
  intros H.
  destruct o; cbn [step] in H;
    try (apply add_inv in H; destruct H as (top & below & _ & ->);
         reflexivity).
  - apply push_inv in H. now destruct H as (top & below & _ & ->).
  - apply pop_inv in H. now destruct H as (top & below & _ & _ & ->).
  - now injection H as <-.
  - destruct (model u) as [[val u0]|] eqn:Hm; [|discriminate].
    injection H as <-. now apply model_frame in Hm.
  - destruct (find_min u) as [[[ok v] u0]|] eqn:Hm; [|discriminate].
    injection H as <-. now apply find_min_frame in Hm.
  - destruct (find_max u) as [[[ok v] u0]|] eqn:Hm; [|discriminate].
    injection H as <-. now apply find_max_frame in Hm.
Qed.

Lemma run_width {dp : decision_procedure} (ops : list operation) :
  forall u u', run ops u = Some u' -> bit_width u' = bit_width u.
Proof.
  induction ops as [|o ops IH]; intros u u' H.
  - now injection H as <-.
  - cbn [run] in H. bind_inv H. apply step_width in E. apply IH in H.
    congruence.
Qed.

(** X18. On a decision procedure that keeps its contract, after
    construction and any run of [add_*], [push], [pop(1)], [check],
    [model], [find_min] and [find_max], a valid cached value of the current
    scope satisfies every assertion in force, and so does whatever
    [model()] returns there: the cache is reset by every assertion and
    filled only from a model of the current assertions. *)
Theorem cached_model_satisfies_assertions {dp : decision_procedure}
  (W : nat) (ops : list operation) (u : univariate_bitblast_solver) :
  sound dp -> pops_one_scope ops ->
  run ops (construct W) = Some u ->
  bit_width u = W /\
  (forall top below,
      model_cache u = top :: below -> 0 <= top ->
      models W (in_force u) top) /\
  (forall v u', model u = Some (v, u') -> models W (in_force u) v).
Proof.
  intros Hs Hops Hrun.
  pose proof (run_width _ _ _ Hrun) as Hw. cbn [construct bit_width] in Hw.
  assert (Hu : consistent u)
    by (eapply (run_consistent Hs); eauto using construct_consistent).
  split; [exact Hw|]. rewrite <- Hw. split.
  - intros top below Hc Hpos. now apply (consistent_cache u Hu top below).
  - intros v u' Hm.
    now apply (model_models Hs u u' v (consistent_cache u Hu) (proj2 Hu)).
Qed.

Lemma cached_model_satisfies_assertions_witness :
  exists u,
    run (dp := exhaustive)
      [op_add_ule_const 10 false 1; op_check; op_model; op_push;
       op_add_uge_const 5 false 2; op_check; op_model; op_pop 1]
      (construct 4) = Some u /\
    model_cache u = [0] /\ models 4 (in_force u) 0.
Proof.
  exists_state (run (dp := exhaustive)
      [op_add_ule_const 10 false 1; op_check; op_model; op_push;
       op_add_uge_const 5 false 2; op_check; op_model; op_pop 1]
      (construct 4)).
  lazymatch goal with
  | |- ?R = Some ?u /\ _ =>
      assert (Hrun : R = Some u) by (vm_compute; reflexivity);
      assert (Hops : pops_one_scope
                [op_add_ule_const 10 false 1; op_check; op_model; op_push;
                 op_add_uge_const 5 false 2; op_check; op_model; op_pop 1])
        by (repeat constructor);
      pose proof (proj1 (proj2 (cached_model_satisfies_assertions
                                  (dp := exhaustive) 4 _ u exhaustive_sound
                                  Hops Hrun)) 0 [] eq_refl ltac:(lia)) as Hm
  end.
  split; [exact Hrun|]. split; [reflexivity|exact Hm].
Defined.

Lemma failed_search_pop (u0 u2 : univariate_bitblast_solver)
  (top : Z) (below : list Z) :
  model_cache u0 = top :: below ->
  0 <= m_scope_level u0 -> m_scope_level u0 + 1 < 2 ^ 32 ->
  tl (scopes (s u2)) = scopes (s u0) ->
  tl (model_cache u2) = top :: below ->
  m_scope_level u2 = unsigned_wrap (m_scope_level u0 + 1) ->
  exists u3,
    pop 1 u2 = Some u3 /\
    scopes (s u3) = scopes (s u0) /\
    scope_level u3 = scope_level u0 /\
    model_cache u3 = model_cache u0.
Proof.
  intros Hc Hl0 Hl1 Hs Ht Hl.
  destruct (model_cache u2) as [|top2 below2] eqn:Hc2; [discriminate Ht|].
  cbn [tl] in Ht. subst below2.
  assert (Hl2 : m_scope_level u2 = m_scope_level u0 + 1)
    by (rewrite Hl; apply unsigned_wrap_small; lia).
  erewrite pop_effect; [|unfold scope_level; lia|exact Hc2].
  eexists. split; [reflexivity|].
  unfold scope_level. cbn [s solver_pop scopes m_scope_level model_cache].
  change (Z.to_nat 1) with 1%nat.
  split; [|split].
  - destruct (scopes (s u2)); cbn [skipn tl] in *; congruence.
  - rewrite Hl2. replace (m_scope_level u0 + 1 - 1) with (m_scope_level u0)
      by lia. apply unsigned_wrap_small. lia.
  - now rewrite Hc.
Qed.

(** X19. A search that returned [false] is undone by one [pop(1)]: on
    an instance whose scope level leaves room for one more scope, that
    [pop(1)] goes through and brings back the assertion stack and the scope
    level of the entry, with the cache as the [model()] call at entry left
    it. *)
Theorem failed_search_undone_by_pop {dp : decision_procedure}
  (u u' : univariate_bitblast_solver) (v : Z) :
  find_min u = Some (false, v, u') \/ find_max u = Some (false, v, u') ->
  0 <= scope_level u -> scope_level u + 1 < 2 ^ 32 ->
  exists u'' v0 u0,
    pop 1 u' = Some u'' /\
    scopes (s u'') = scopes (s u) /\
    scope_level u'' = scope_level u /\
    model u = Some (v0, u0) /\
    model_cache u'' = model_cache u0.
Proof.
  unfold scope_level at 1 2. intros [H|H] Hl0 Hl1.
  - unfold find_min in H.
    destruct (model u) as [[val u0]|] eqn:Hmodel; [|discriminate].
    pose proof (model_frame _ _ _ Hmodel) as (_ & Ms & Ml & _ & Mhd).
    bind_inv H.
    destruct (find_min_loop (bit_width u1) val u1) as [[[ok' val'] u2]|]
      eqn:Hloop; [|discriminate].
    destruct ok'; [bind_inv H; discriminate H|]. injection H as _ <-.
    apply find_min_loop_frame in Hloop.
    destruct Hloop as (_ & Ls & Lc & Ll).
    apply push_inv in E. destruct E as (top & below & Hc & ->).
    cbn [s scopes solver_push tl model_cache m_scope_level] in *.
    specialize (Ll (unsigned_wrap_range _)).
    destruct (failed_search_pop u0 u2 top below Hc ltac:(lia) ltac:(lia)
                Ls Lc Ll) as (u3 & Hp & Hs3 & Hl3 & Hc3).
    exists u3, val, u0. unfold scope_level in *.
    repeat split; try assumption; congruence.
  - unfold find_max in H.
    destruct (model u) as [[val u0]|] eqn:Hmodel; [|discriminate].
    pose proof (model_frame _ _ _ Hmodel) as (_ & Ms & Ml & _ & Mhd).
    bind_inv H.
    destruct (find_max_loop (bit_width u1) val u1) as [[[ok' val'] u2]|]
      eqn:Hloop; [|discriminate].
    destruct ok'; [bind_inv H; discriminate H|]. injection H as _ <-.
    apply find_max_loop_frame in Hloop.
    destruct Hloop as (_ & Ls & Lc & Ll).
    apply push_inv in E. destruct E as (top & below & Hc & ->).
    cbn [s scopes solver_push tl model_cache m_scope_level] in *.
    specialize (Ll (unsigned_wrap_range _)).
    destruct (failed_search_pop u0 u2 top below Hc ltac:(lia) ltac:(lia)
                Ls Lc Ll) as (u3 & Hp & Hs3 & Hl3 & Hc3).
    exists u3, val, u0. unfold scope_level in *.
    repeat split; try assumption; congruence.
Qed.

Lemma failed_search_undone_by_pop_witness :
  exists u u' u'',
    run (dp := bounded) [op_add_uge_const 1 false 1; op_check] (construct 4)
      = Some u /\
    find_min (dp := bounded) u = Some (false, 1, u') /\
    pop 1 u' = Some u'' /\
    scopes (s u'') = scopes (s u) /\
    scope_level u'' = scope_level u.
Proof.
  exists_state (run (dp := bounded) [op_add_uge_const 1 false 1; op_check]
                  (construct 4)).
  lazymatch goal with
  | |- exists _ _, _ = Some ?u /\ _ =>
      exists_state (find_min (dp := bounded) u);
      lazymatch goal with
      | |- exists _, _ /\ ?F = Some (_, _, ?u') /\ _ =>
          assert (E : F = Some (false, 1, u')) by (vm_compute; reflexivity);
          destruct (failed_search_undone_by_pop (dp := bounded) u u' 1
                      (or_introl E) ltac:(cbn; lia) ltac:(cbn; lia))
            as (u'' & v0 & u0 & Hp & Hs & Hl & _)
      end
  end.
  exists u''. split; [reflexivity|]. split; [exact E|].
  split; [exact Hp|]. split; [exact Hs|exact Hl].
Defined.

Lemma step_cache_frames {dp : decision_procedure} (o : operation)
  (u u' : univariate_bitblast_solver) :
  plain o -> step o u = Some u' ->
  Z.of_nat (length (model_cache u'))
  = Z.of_nat (length (model_cache u)) + cache_delta o.
Proof.
  intros Ho H.
  destruct o; cbn [plain] in Ho; try contradiction;
    cbn [step cache_delta] in H; cbn [cache_delta];
    try (apply add_inv in H; destruct H as (top & below & Hc & ->);
         rewrite Hc; cbn [model_cache length]; lia).
  - apply push_inv in H. destruct H as (top & below & Hc & ->).
    rewrite Hc. cbn [model_cache length]. lia.
  - apply pop_inv in H. destruct H as (top & below & _ & Hc & ->).
    rewrite Hc. cbn [model_cache length]. lia.
  - injection H as <-. cbn. lia.
  - destruct (model u) as [[val u0]|] eqn:Hm; [|discriminate].
    injection H as <-. apply model_inv in Hm.
    destruct Hm as (top & below & Hc & [(_ & _ & ->)|(_ & _ & ->)]);
      rewrite Hc; cbn [model_cache length]; lia.
Qed.

(** X20. The depth of the model cache counts the [push()] calls minus the
    [pop(n)] calls, whatever their [n]: after any run of [push], [pop(n)],
    [add_*], [check] and [model] that goes through, the cache holds as many
    frames as before, plus one per [push()], minus one per [pop(n)]. *)
Theorem cache_depth_counts_calls {dp : decision_procedure}
  (ops : list operation) :
  forall u u',
    Forall plain ops ->
    run ops u = Some u' ->
    Z.of_nat (length (model_cache u'))
    = Z.of_nat (length (model_cache u)) + net_cache_frames ops.
Proof.
  induction ops as [|o ops IH]; intros u u' Hops H.
  - injection H as <-. cbn [net_cache_frames fold_right]. lia.
  - inversion Hops as [|o' ops' Ho Hrest]; subst.
    cbn [run] in H. bind_inv H.
    apply (step_cache_frames o) in E; [|exact Ho].
    apply IH in H; [|exact Hrest].
    cbn [net_cache_frames fold_right]. fold (net_cache_frames ops). lia.
Qed.

Lemma cache_depth_counts_calls_witness :
  exists u',
    run (dp := exhaustive) [op_push; op_push; op_push; op_pop 3]
      (construct 4) = Some u' /\
    scope_level u' = 0 /\
    Z.of_nat (length (model_cache u')) = 1 + 2.
Proof.
  exists_state (run (dp := exhaustive) [op_push; op_push; op_push; op_pop 3]
                  (construct 4)).
  split; [reflexivity|]. split; [reflexivity|].
  refine (cache_depth_counts_calls (dp := exhaustive)
            [op_push; op_push; op_push; op_pop 3] (construct 4) _ _ eq_refl).
  repeat constructor. cbn. lia.
Defined.
